(** * EchoNote: audio segmentation and transcript assembly

    A shallow embedding of [transcriber.py]: the grouping of silence-delimited
    audio segments into bounded chunks ([convert_and_split_audio]), the
    post-processing of one recognition response ([transcribe_audio_chunk]),
    the merge of the per-chunk results ([merge_transcript_chunks]) and the
    driver ([transcribe_audio_file]); of the fallback summary of
    [summarizer.py] ([generate_basic_summary],
    [generate_summary_and_action_items]); and of the background task of
    [main.py] that runs them ([process_audio_background]).

    Modelling decisions, all visible in the definitions below.
    - The word dictionaries built by [transcribe_audio_chunk] are mutable
      Python objects that [merge_transcript_chunks] updates in place.  They
      live in a store ([gmap loc segment]); a chunk result holds references,
      and two chunk results may hold the same reference.
    - Timestamps are Python floats (seconds).  They are modelled by exact
      rationals ([Qc]); rounding of the float additions is not modelled.
    - Python [int] is [Z]; [str] is [string], a sequence of one-byte
      characters.
    - An [AudioSegment] is a list of frames of one millisecond, the unit in
      which pydub measures, slices and concatenates audio.
    - Exceptions are values of type [exception]; a function that can raise
      returns a sum.  Logging is not modelled.
    - The Google Cloud and pydub calls are parameters of the pipeline.  For
      pydub's [split_on_silence] there is, besides, a model written from its
      description ([SilenceModel]), used to run the segmenter on recordings.
    - The functions of [database.py] are calls into SQLAlchemy; they are
      parameters of the background task, like the Vertex AI client.

    The file has the embedding first, then the vocabulary of the statements
    and the worked examples, then the proofs. *)

From Stdlib Require Import QArith Qcanon Ascii.
From stdpp Require Import gmap strings list fin_maps pretty numbers sorting.

Local Open Scope Z_scope.

(** ** Python built-ins used by the module *)

Module Py.

(** [int(x)] on a float: truncation toward zero. *)
Definition int (x : Qc) : Z := Z.quot (Qnum x) (Zpos (Qden x)).

(** [max(a, b)]: the second argument wins only when strictly greater. *)
Definition max2 (a b : Qc) : Qc := if decide (a < b)%Qc then b else a.

(** [max(iterable)]: [None] stands for the [ValueError] on an empty
    iterable. *)
Definition max (l : list Qc) : option Qc :=
  match l with
  | [] => None
  | x :: l' => Some (foldl max2 x l')
  end.

(** [sorted(l, key=key)].  Python's sort is stable and compares keys with
    [<] only; every stable sort computes the same list
    ([stable_sorted_unique] below), here by insertion. *)
Fixpoint insert {A} (key : A → Qc) (x : A) (l : list A) : list A :=
  match l with
  | [] => [x]
  | y :: l' =>
      if decide (key y < key x)%Qc then y :: insert key x l' else x :: y :: l'
  end.

Fixpoint sorted {A} (key : A → Qc) (l : list A) : list A :=
  match l with
  | [] => []
  | x :: l' => insert key x (sorted key l')
  end.

(** [str.isspace] on the characters of a one-byte string. *)
Definition isspace (a : ascii) : bool :=
  let n := nat_of_ascii a in
  ((9 <=? n)%nat && (n <=? 13)%nat) || ((28 <=? n)%nat && (n <=? 32)%nat).

Fixpoint lstrip (s : string) : string :=
  match s with
  | String a s' => if isspace a then lstrip s' else s
  | EmptyString => EmptyString
  end.

Definition rstrip (s : string) : string := String.rev (lstrip (String.rev s)).

(** [s.strip()] *)
Definition strip (s : string) : string := rstrip (lstrip s).

(** [sep.join(l)] *)
Fixpoint join (sep : string) (l : list string) : string :=
  match l with
  | [] => ""
  | [s] => s
  | s :: l' => s +:+ sep +:+ join sep l'
  end.

(** ["\n"] *)
Definition newline : string := String (ascii_of_nat 10) "".

(** [str(n)] for an [int], as an f-string renders it. *)
Definition str (n : Z) : string := pretty n.

End Py.

(** ** Data model *)

(** One word dictionary:
    [{"word": .., "start_time": .., "end_time": .., "speaker": ..}]. *)
Record segment := Segment {
  word : string;
  start_time : Qc;
  end_time : Qc;
  speaker : Z
}.

Global Instance segment_eq_dec : EqDecision segment.
Proof. solve_decision. Defined.

(** References to word dictionaries, and the store they live in. *)
Definition loc := nat.
Abbreviation heap := (gmap loc segment).

(** The dictionary returned by [transcribe_audio_chunk]; ["segments"] is a
    list of references. *)
Record chunk_result := ChunkResult {
  segments : list loc;
  speaker_count : Z;
  transcript : string
}.

(** The dictionary returned by [merge_transcript_chunks]
    (its key ["speaker_count"] is the field [total_speaker_count]). *)
Record transcript_result := TranscriptResult {
  transcript_text : string;
  total_speaker_count : Z;
  duration_seconds : Z
}.

(** ** merge_transcript_chunks *)

(** [segment["start_time"] += total_duration;
     segment["end_time"] += total_duration] *)
Definition rebase (total_duration : Qc) (s : segment) : segment :=
  {| word := word s;
     start_time := (start_time s + total_duration)%Qc;
     end_time := (end_time s + total_duration)%Qc;
     speaker := speaker s |}.

(** The inner loop over [chunk_result["segments"]]: each dictionary is
    updated in the store and its reference appended to [all_segments]. *)
Fixpoint adjust_segments (total_duration : Qc) (segs : list loc)
    (h : heap) (all_segments : list loc) : option (heap * list loc) :=
  match segs with
  | [] => Some (h, all_segments)
  | l :: segs' =>
      s ← h !! l;
      adjust_segments total_duration segs'
        (<[l := rebase total_duration s]> h) (all_segments ++ [l])
  end.

(** The variables of the outer loop. *)
Record merge_state := MergeState {
  ms_heap : heap;
  all_segments : list loc;
  total_duration : Qc;
  max_speaker_count : Z
}.

(** [max(seg["end_time"] for seg in chunk_result["segments"])] *)
Definition max_end_time (h : heap) (segs : list loc) : option Qc :=
  ends ← mapM (λ l, end_time <$> h !! l) segs;
  Py.max ends.

(** One iteration of [for chunk_result in chunks_results]. *)
Definition merge_chunk (st : merge_state) (c : chunk_result) : option merge_state :=
  '(h, all) ← adjust_segments (total_duration st) (segments c)
                (ms_heap st) (all_segments st);
  total ← match segments c with
          | [] => Some (total_duration st)
          | _ => max_end_time h (segments c)
          end;
  Some {| ms_heap := h;
          all_segments := all;
          total_duration := total;
          max_speaker_count := Z.max (max_speaker_count st) (speaker_count c) |}.

Fixpoint merge_loop (chunks_results : list chunk_result) (st : merge_state)
    : option merge_state :=
  match chunks_results with
  | [] => Some st
  | c :: rest => st' ← merge_chunk st c; merge_loop rest st'
  end.

(** The body of [for segment in sorted(...)]: the loop variables are
    [transcript_text] and [current_speaker] ([None] before the first word). *)
Definition render_step (st : string * option Z) (s : segment) : string * option Z :=
  let '(text, current_speaker) := st in
  let '(text, current_speaker) :=
    if decide (Some (speaker s) ≠ current_speaker) then
      let text := match current_speaker with
                  | Some _ => text +:+ Py.newline
                  | None => text
                  end in
      (text +:+ ("Speaker " +:+ Py.str (speaker s) +:+ ": "), Some (speaker s))
    else (text, current_speaker) in
  (text +:+ (word s +:+ " "), current_speaker).

Definition render (segs : list segment) : string :=
  Py.strip (foldl render_step ("", None) segs).1.

Definition initial_state (h : heap) : merge_state :=
  {| ms_heap := h; all_segments := []; total_duration := 0%Qc;
     max_speaker_count := 0 |}.

(** [None] can only come from a reference that is not in the store. *)
Definition merge_transcript_chunks (chunks_results : list chunk_result) (h : heap)
    : option (transcript_result * heap) :=
  st ← merge_loop chunks_results (initial_state h);
  segs ← mapM (λ l, ms_heap st !! l) (all_segments st);
  Some ({| transcript_text := render (Py.sorted start_time segs);
           total_speaker_count := max_speaker_count st;
           duration_seconds := Py.int (total_duration st) |},
        ms_heap st).

(** ** Exceptions and the state of a job *)

Inductive exception :=
  | ExternalError (kind : string)  (** raised inside a Google Cloud or pydub call *)
  | IndexError                     (** [alternatives[0]] on an empty list *)
  | InvalidReference.              (** a reference outside the store; Python never builds one *)

Global Instance exception_eq_dec : EqDecision exception.
Proof. solve_decision. Defined.

(** A computation over a state [S] that returns a value or raises. *)
Definition M (S A : Type) : Type := S → (exception + A) * S.

Global Instance M_ret {S} : MRet (M S) := λ A x s, (inr x, s).
Global Instance M_bind {S} : MBind (M S) := λ A B f m s,
  match m s with
  | (inr x, s') => f x s'
  | (inl e, s') => (inl e, s')
  end.

(** ** The pipeline, over its external collaborators *)

(** [speech.RecognitionConfig(...)] *)
Record recognition_config := RecognitionConfig {
  encoding : string;
  sample_rate_hertz : Z;
  language_code : string;
  enable_speaker_diarization : bool;
  diarization_speaker_count_min : Z;
  diarization_speaker_count_max : Z;
  enable_automatic_punctuation : bool;
  model : string
}.

(** One entry of [alternative.words]; the two times are the values of
    [total_seconds()]. *)
Record word_info := WordInfo {
  wi_word : string;
  wi_start_time : Qc;
  wi_end_time : Qc;
  wi_speaker_tag : Z
}.

Record alternative := Alternative { alt_words : list word_info }.
Record recognition_result := RecognitionResult { alternatives : list alternative }.

(** [response.results] *)
Definition response := list recognition_result.

Definition MAX_CHUNK_DURATION_MS : Z := 5 * 60 * 1000.

Global Instance byte_eq_dec : EqDecision Byte.byte := Byte.byte_eq_dec.

Section Pipeline.

(** The state of the outside world (bucket contents, recognition service),
    the uploaded file object, and one millisecond of decoded audio: pydub
    measures, slices and concatenates an [AudioSegment] in milliseconds. *)
Context {World File Frame : Type}.

Definition AudioSegment : Type := list Frame.

(** [len(audio)], in milliseconds *)
Definition len (audio : AudioSegment) : Z := Z.of_nat (length audio).

Record state := State { world : World; store : heap }.

(** [os.getenv] *)
Variable getenv : string → option string.
(** [uuid.uuid4()], rendered *)
Variable uuid4 : World → string * World.
(** [bucket.blob(blob_name).upload_from_file(audio_file, content_type=..)] *)
Variable upload_from_file :
  string → string → File → string → World → (exception + unit) * World.
(** [AudioSegment.from_file] *)
Variable from_file : File → exception + AudioSegment.
(** [set_frame_rate] then [set_channels] *)
Variable set_frame_rate_and_channels : Z → Z → AudioSegment → AudioSegment.
(** [audio.dBFS] *)
Variable dBFS : AudioSegment → Qc.
(** [pydub.silence.split_on_silence(audio, min_silence_len, silence_thresh,
    keep_silence)] *)
Variable split_on_silence : AudioSegment → Z → Qc → Z → list AudioSegment.
(** [audio.export(buffer, format="flac"); buffer.getvalue()] *)
Variable export_flac : AudioSegment → list Byte.byte.
(** [speech_client.long_running_recognize(config, audio).result(timeout)] *)
Variable long_running_recognize :
  recognition_config → list Byte.byte → Z → World → (exception + response) * World.

Definition GCS_BUCKET_NAME : string :=
  default "meeting-transcription-audio" (getenv "GCS_BUCKET_NAME").

(** A call that touches only the outside world. *)
Definition external {A} (f : World → (exception + A) * World) : M state A :=
  λ s, let '(r, w) := f (world s) in (r, {| world := w; store := store s |}).

(** Raise the exception of a call that has no effect. *)
Definition lift {A} (r : exception + A) : M state A := λ s, (r, s).

Definition upload_audio_to_gcs (audio_file : File) (filename : string)
    : M state string :=
  uuid ← external (λ w, let '(u, w') := uuid4 w in (inr u, w'));
  let blob_name := "audio/" +:+ uuid +:+ "/" +:+ filename in
  _ ← external (upload_from_file GCS_BUCKET_NAME blob_name audio_file "audio/mpeg");
  mret ("gs://" +:+ GCS_BUCKET_NAME +:+ "/" +:+ blob_name).

(** The grouping loop: the loop variables are [current_chunk] and [chunks]. *)
Fixpoint group_chunks (audio_chunks : list AudioSegment)
    (current_chunk : AudioSegment) (chunks : list (list Byte.byte))
    : AudioSegment * list (list Byte.byte) :=
  match audio_chunks with
  | [] => (current_chunk, chunks)
  | chunk :: rest =>
      if decide (len current_chunk + len chunk ≤ MAX_CHUNK_DURATION_MS) then
        group_chunks rest (current_chunk ++ chunk) chunks
      else
        let chunks :=
          if decide (len current_chunk > 0)
          then chunks ++ [export_flac current_chunk] else chunks in
        group_chunks rest chunk chunks
  end.

Definition convert_and_split_audio (audio_file : File)
    : exception + list (list Byte.byte) :=
  match from_file audio_file with
  | inl e => inl e
  | inr audio =>
      let audio := set_frame_rate_and_channels 16000 1 audio in
      if decide (len audio ≤ MAX_CHUNK_DURATION_MS) then
        inr [export_flac audio]
      else
        let audio_chunks :=
          split_on_silence audio 1000 (dBFS audio - Qc_of_Z 14)%Qc 500 in
        let '(current_chunk, chunks) := group_chunks audio_chunks [] [] in
        inr (if decide (len current_chunk > 0)
             then chunks ++ [export_flac current_chunk] else chunks)
  end.

(** The body of [for word_info in alternative.words]: the loop variables
    are [segments] and [speaker_count]; the new dictionary is allocated at
    a fresh reference. *)
Definition add_word (st : heap * list loc * Z) (w : word_info)
    : heap * list loc * Z :=
  let '(h, segs, speaker_count) := st in
  let speaker_tag := wi_speaker_tag w in
  let speaker_count :=
    if decide (speaker_tag > speaker_count) then speaker_tag else speaker_count in
  let l := fresh (dom h) in
  (<[l := {| word := wi_word w; start_time := wi_start_time w;
             end_time := wi_end_time w; speaker := speaker_tag |}]> h,
   segs ++ [l], speaker_count).

(** [for result in response.results] *)
Fixpoint process_results (results : response) (st : heap * list loc * Z)
    : (exception + unit) * (heap * list loc * Z) :=
  match results with
  | [] => (inr (), st)
  | result :: rest =>
      match alternatives result with
      | [] => (inl IndexError, st)
      | alt :: _ => process_results rest (foldl add_word st (alt_words alt))
      end
  end.

(** The part of [transcribe_audio_chunk] after the remote call returns. *)
Definition collect_segments (resp : response) : M state chunk_result :=
  λ s,
    let '(r, (h, segs, speaker_count)) := process_results resp (store s, [], 0) in
    let s' := {| world := world s; store := h |} in
    match r, mapM (λ l, word <$> h !! l) segs with
    | inl e, _ => (inl e, s')
    | inr _, None => (inl InvalidReference, s')
    | inr _, Some ws =>
        (inr {| segments := segs; speaker_count := speaker_count;
                transcript := Py.join " " ws |}, s')
    end.

Definition transcribe_audio_chunk (audio_chunk : list Byte.byte) (language : string)
    : M state chunk_result :=
  let config :=
    {| encoding := "FLAC"; sample_rate_hertz := 16000;
       language_code := language; enable_speaker_diarization := true;
       diarization_speaker_count_min := 1; diarization_speaker_count_max := 10;
       enable_automatic_punctuation := true; model := "video" |} in
  resp ← external (long_running_recognize config audio_chunk 900);
  collect_segments resp.

(** [for i, chunk in enumerate(audio_chunks)]: the loop variable is
    [chunk_results]. *)
Fixpoint transcribe_chunks (audio_chunks : list (list Byte.byte)) (language : string)
    (chunk_results : list chunk_result) : M state (list chunk_result) :=
  match audio_chunks with
  | [] => mret chunk_results
  | chunk :: rest =>
      result ← transcribe_audio_chunk chunk language;
      transcribe_chunks rest language (chunk_results ++ [result])
  end.

(** [merge_transcript_chunks] run on the job's store. *)
Definition merge_in_store (chunk_results : list chunk_result)
    : M state transcript_result :=
  λ s, match merge_transcript_chunks chunk_results (store s) with
       | Some (res, h) => (inr res, {| world := world s; store := h |})
       | None => (inl InvalidReference, s)
       end.

(** The final dictionary is the merged one with the key ["gcs_uri"] added. *)
Definition transcribe_audio_file (audio_file : File) (language : string)
    (original_filename : string) : M state (transcript_result * string) :=
  gcs_uri ← upload_audio_to_gcs audio_file original_filename;
  audio_chunks ← lift (convert_and_split_audio audio_file);
  chunk_results ← transcribe_chunks audio_chunks language [];
  final_result ← merge_in_store chunk_results;
  mret (final_result, gcs_uri).

End Pipeline.

(** ** Silence splitting *)

Module SilenceModel.

(** One millisecond of audio, by its loudness in dB relative to full scale. *)
Definition Frame : Type := Z.

(** Modelled from the spec: the loudness of a buffer, which pydub computes
    and the repository does not ("the buffer's average loudness"). *)
Definition dBFS (audio : list Frame) : Qc :=
  match audio with
  | [] => 0%Qc
  | _ => (Qc_of_Z (foldr Z.add 0%Z audio) / Qc_of_Z (Z.of_nat (length audio)))%Qc
  end.

Definition quiet (silence_thresh : Qc) (f : Frame) : bool :=
  bool_decide (Qc_of_Z f ≤ silence_thresh)%Qc.

(** Maximal runs of frames on the same side of the threshold. *)
Fixpoint runs (silence_thresh : Qc) (audio : list Frame) : list (bool * list Frame) :=
  match audio with
  | [] => []
  | f :: rest =>
      match runs silence_thresh rest with
      | (b, r) :: rs =>
          if decide (b = quiet silence_thresh f) then (b, f :: r) :: rs
          else (quiet silence_thresh f, [f]) :: (b, r) :: rs
      | [] => [(quiet silence_thresh f, [f])]
      end
  end.

(** A quiet run of at least [min_silence_len] frames is a silence ([inl]);
    everything between two silences is one stretch of sound ([inr]). *)
Fixpoint delimit (min_silence_len : nat) (rs : list (bool * list Frame))
    : list (list Frame + list Frame) :=
  match rs with
  | [] => []
  | (b, r) :: rest =>
      if b && bool_decide (min_silence_len ≤ length r)%nat then
        inl r :: delimit min_silence_len rest
      else
        match delimit min_silence_len rest with
        | inr s :: d => inr (r ++ s) :: d
        | d => inr r :: d
        end
  end.

(** Each stretch of sound is retained with [keep_silence] frames of the
    silence before it ([lead]) and after it; the rest of a silence is in no
    segment. *)
Fixpoint retain (keep_silence : nat) (lead : list Frame)
    (d : list (list Frame + list Frame)) : list (list Frame) :=
  match d with
  | [] => []
  | inl sil :: rest =>
      retain keep_silence (drop (length sil - keep_silence) sil) rest
  | inr sound :: rest =>
      let trail := match rest with
                   | inl sil :: _ => take keep_silence sil
                   | _ => []
                   end in
      (lead ++ sound ++ trail) :: retain keep_silence [] rest
  end.

(** Modelled from the spec: pydub's [split_on_silence], which the repository
    calls and does not contain.  The spec describes it as detecting silence
    with an energy threshold, "treating any interval of at least a fixed
    minimum length (e.g. 1 second) as a cut candidate", and preserving "a
    fixed amount of trailing silence (e.g. 0.5 second) around each retained
    segment".  The model assumes [2 * keep_silence ≤ min_silence_len], as
    in the one call the repository makes, so that the silence kept on the
    two sides of a cut never overlaps. *)
Definition split_on_silence (audio : list Frame) (min_silence_len : Z)
    (silence_thresh : Qc) (keep_silence : Z) : list (list Frame) :=
  retain (Z.to_nat keep_silence) []
    (delimit (Z.to_nat min_silence_len) (runs silence_thresh audio)).

(** A stand-in for the FLAC encoder: one byte per frame. *)
Definition export (audio : list Frame) : list Byte.byte :=
  (λ f, default Byte.x00 (Byte.of_N (Z.to_N (f `mod` 256)))) <$> audio.

(** The segmenter run on an already decoded, already normalised buffer. *)
Abbreviation split audio :=
  (convert_and_split_audio (File := list Frame) inr (λ _ _ a, a) dBFS
     split_on_silence export audio).

End SilenceModel.

(** ** Python string built-ins used by the summarizer *)

Module PyStr.

(** The scan of [s.split(sep)]: [cur] is the piece being read, reversed;
    once an occurrence of [sep] is found, its remaining [skip] characters
    are passed over. *)
Fixpoint split_from (sep : list ascii) (skip : nat) (cur s : list ascii)
    : list (list ascii) :=
  match s with
  | [] => [reverse cur]
  | a :: s' =>
      match skip with
      | S k => split_from sep k cur s'
      | O =>
          if decide (sep `prefix_of` s)
          then reverse cur :: split_from sep (length sep - 1) [] s'
          else split_from sep 0 (a :: cur) s'
      end
  end.

(** [s.split(sep)] for a non-empty [sep] (Python raises [ValueError] on an
    empty one): the pieces between the occurrences of [sep], which are
    found from the left and do not overlap. *)
Definition split (sep s : string) : list string :=
  String.string_of_list_ascii <$>
    split_from (String.list_ascii_of_string sep) 0 []
      (String.list_ascii_of_string s).

End PyStr.

(** ** summarizer.py *)

(** The operations in the [try] block are total on strings, so the
    [except] branch ("Summary not available.") is never taken. *)
Definition generate_basic_summary (transcript_text language : string) : string :=
  let sentences := PyStr.split ". " transcript_text in
  let summary_sentences :=
    if decide (length sentences ≤ 5)%nat then sentences
    else take 3 sentences ++ drop (length sentences - 2) sentences in
  let summary := Py.join ". " summary_sentences in
  let prefix :=
    if decide (language = "it")
    then "Riassunto automatico della riunione:" +:+ Py.newline +:+ Py.newline
    else "Automatic meeting summary:" +:+ Py.newline +:+ Py.newline in
  prefix +:+ summary.

(** What [generate_summary_and_action_items] returns: the dictionary of the
    [try] block or the bare string of the [except] branch. *)
Inductive summary_result :=
  | SummaryDict (summary_text language : string)
  | SummaryStr (text : string).

Section Summarizer.
Context {World : Type}.

(** [aip.PredictionServiceClient(client_options=..)] and
    [client.endpoint_path(..)], the calls of the [try] block that can
    raise. *)
Variable prediction_service_client : World → (exception + unit) * World.

(** The prompt is built and not used. *)
Definition generate_summary_and_action_items (transcript_text language : string)
    (w : World) : summary_result * World :=
  match prediction_service_client w with
  | (inr _, w') =>
      (SummaryDict (generate_basic_summary transcript_text language) language, w')
  | (inl _, w') =>
      (SummaryStr (generate_basic_summary transcript_text language), w')
  end.

End Summarizer.

(** ** main.py: the background task *)

(** The value of a keyword argument of [update_transcript_status]. *)
Inductive field_value := StrField (s : string) | IntField (n : Z).

(** What the [try] block of [process_audio_background] can raise: an
    exception of the pipeline or of a database call, or the [TypeError] of
    a subscript on a string. *)
Inductive failure := Raised (e : exception) | TypeError.

(** A computation of the [try] block. *)
Definition Attempt (S A : Type) : Type := S → (failure + A) * S.

Global Instance Attempt_ret {S} : MRet (Attempt S) := λ A x s, (inr x, s).
Global Instance Attempt_bind {S} : MBind (Attempt S) := λ A B f m s,
  match m s with
  | (inr x, s') => f x s'
  | (inl e, s') => (inl e, s')
  end.

(** A call in the [try] block that raises what it raises. *)
Definition raised {S A} (m : M S A) : Attempt S A :=
  λ s, match m s with
       | (inr x, s') => (inr x, s')
       | (inl e, s') => (inl (Raised e), s')
       end.

(** [summary_result["summary_text"]] *)
Definition summary_text_of (summary_result : summary_result) : failure + string :=
  match summary_result with
  | SummaryDict summary_text _ => inr summary_text
  | SummaryStr _ => inl TypeError
  end.

Section Application.
Context {World Frame : Type}.

Variable getenv : string → option string.
Variable uuid4 : World → string * World.
Variable upload_from_file :
  string → string → list Byte.byte → string → World → (exception + unit) * World.
Variable from_file : list Byte.byte → exception + list Frame.
Variable set_frame_rate_and_channels : Z → Z → list Frame → list Frame.
Variable dBFS : list Frame → Qc.
Variable split_on_silence : list Frame → Z → Qc → Z → list (list Frame).
Variable export_flac : list Frame → list Byte.byte.
Variable long_running_recognize :
  recognition_config → list Byte.byte → Z → World → (exception + response) * World.
Variable prediction_service_client : World → (exception + unit) * World.
(** [database.update_transcript_status(db, transcript_id, status, **kwargs)] *)
Variable update_transcript_status :
  string → string → list (string * field_value) → World → (exception + unit) * World.
(** [db.query(Transcript).filter(Transcript.id == transcript_id).first()],
    read for its [user_id] *)
Variable query_transcript : string → World → (exception + option string) * World.
(** [database.update_usage(db, user_id, seconds_transcribed)] *)
Variable update_usage : string → Z → World → (exception + unit) * World.

(** The [try] block.  [io.BytesIO(audio_file_content)] is the file object
    that the pipeline reads. *)
Definition process_audio_attempt (transcript_id : string)
    (audio_file_content : list Byte.byte) (original_filename language : string)
    : Attempt (state (World := World)) unit :=
  _ ← raised (external (update_transcript_status transcript_id "processing" []));
  let audio_file := audio_file_content in
  result ← raised (transcribe_audio_file getenv uuid4 upload_from_file from_file
                     set_frame_rate_and_channels dBFS split_on_silence export_flac
                     long_running_recognize audio_file language original_filename);
  summary_result ←
    (λ s, let '(r, w) := generate_summary_and_action_items prediction_service_client
                            (transcript_text result.1) language (world s) in
          (inr r, {| world := w; store := store s |}));
  summary_text ← (λ s, (summary_text_of summary_result, s));
  _ ← raised (external (update_transcript_status transcript_id "done"
         [("transcript_text", StrField (transcript_text result.1));
          ("summary_text", StrField summary_text);
          ("duration_seconds", IntField (duration_seconds result.1));
          ("speaker_count", IntField (total_speaker_count result.1));
          ("gcs_uri", StrField result.2)]));
  transcript ← raised (external (query_transcript transcript_id));
  match transcript with
  | Some user_id =>
      raised (external (update_usage user_id (duration_seconds result.1)))
  | None => mret ()
  end.

(** [except Exception]: the status is set to ["error"]; an exception of
    that call leaves the task. *)
Definition process_audio_background (transcript_id : string)
    (audio_file_content : list Byte.byte) (original_filename language : string)
    : M (state (World := World)) unit :=
  λ s, match process_audio_attempt transcript_id audio_file_content
               original_filename language s with
       | (inr _, s') => (inr (), s')
       | (inl _, s') =>
           external (update_transcript_status transcript_id "error" []) s'
       end.

End Application.

(** ** Vocabulary of the statements *)

(** The store [h] holds the words [ws] at the references of [c], in order. *)
Definition holds (h : heap) (c : chunk_result) (ws : list segment) : Prop :=
  Forall2 (λ l w, h !! l = Some w) (segments c) ws.

(** The chunk results [chunks] stand for the word sequences [wss]: every word
    is a dictionary of its own, stored in [h].  The chunk results of a job
    are of this kind ([transcribe_chunks_represents] below). *)
Definition represents (h : heap) (chunks : list chunk_result)
    (wss : list (list segment)) : Prop :=
  NoDup (chunks ≫= segments) ∧ Forall2 (holds h) chunks wss.

(** Every reference of the chunk results is in the store (the same dictionary
    may occur more than once). *)
Definition stored (h : heap) (chunks : list chunk_result) : Prop :=
  Forall (λ c, Forall (λ l, is_Some (h !! l)) (segments c)) chunks.

(** The dictionary that [transcribe_audio_chunk] builds for one word. *)
Definition segment_of (w : word_info) : segment :=
  {| word := wi_word w; start_time := wi_start_time w;
     end_time := wi_end_time w; speaker := wi_speaker_tag w |}.

(** The references [segs] were allocated after the store was [h0]: they are
    distinct, they are not references of [h0], the store [h] holds the words
    [ws] there and is [h0] everywhere else. *)
Definition allocated (h0 h : heap) (segs : list loc) (ws : list segment) : Prop :=
  NoDup segs ∧
  Forall (λ l, h0 !! l = None) segs ∧
  Forall2 (λ l w, h !! l = Some w) segs ws ∧
  ∀ l, is_Some (h0 !! l) → h !! l = h0 !! l.

(** [m] is the largest element of [l]. *)
Definition is_max (l : list Qc) (m : Qc) : Prop :=
  m ∈ l ∧ ∀ x, x ∈ l → (x ≤ m)%Qc.

(** The largest chunk-local end offset of a word sequence ([0] when empty). *)
Fixpoint max_end_offset (ws : list segment) : Qc :=
  match ws with
  | [] => 0%Qc
  | w :: ws' =>
      match ws' with
      | [] => end_time w
      | _ => if decide (end_time w ≤ max_end_offset ws')%Qc
             then max_end_offset ws' else end_time w
      end
  end.

(** The timeline offset after a chunk with words [ws], from the offset
    before it. *)
Definition advance (offset : Qc) (ws : list segment) : Qc :=
  match ws with
  | [] => offset
  | _ => (offset + max_end_offset ws)%Qc
  end.

(** The timeline offset current when chunk [i] is processed. *)
Definition timeline_offset (wss : list (list segment)) (i : nat) : Qc :=
  foldl advance 0%Qc (take i wss).

(** The words of every chunk on the global timeline. *)
Fixpoint rebase_chunks (offset : Qc) (wss : list (list segment))
    : list (list segment) :=
  match wss with
  | [] => []
  | ws :: rest => (rebase offset <$> ws) :: rebase_chunks (advance offset ws) rest
  end.

(** The largest local speaker count ([0] for no chunk). *)
Definition max_local_speaker_count (chunks : list chunk_result) : Z :=
  foldr Z.max 0 (speaker_count <$> chunks).


Definition label (n : Z) : string := "Speaker " +:+ Py.str n +:+ ": ".





(** What the rendering loop appends for [segs] when the previous word was
    spoken by [current_speaker]. *)
Fixpoint render_from (current_speaker : option Z) (segs : list segment) : string :=
  match segs with
  | [] => ""
  | s :: rest =>
      (if decide (Some (speaker s) ≠ current_speaker) then
         match current_speaker with
         | Some _ => Py.newline +:+ label (speaker s)
         | None => label (speaker s)
         end
       else "") +:+ word s +:+ " " +:+ render_from (Some (speaker s)) rest
  end.

(** The words of a recognition response that [transcribe_audio_chunk]
    reads: those of the first alternative of every result. *)
Definition response_words (resp : response) : list word_info :=
  resp ≫= λ r, match alternatives r with
               | alt :: _ => alt_words alt
               | [] => []
               end.


(** The largest speaker tag of a word sequence ([0] when empty). *)
Definition max_speaker_tag (ws : list segment) : Z :=
  foldr Z.max 0 (speaker <$> ws).

(** A chunk result as [transcribe_audio_chunk] returns it for the words
    [ws]. *)
Definition summarises (c : chunk_result) (ws : list segment) : Prop :=
  speaker_count c = max_speaker_tag ws ∧
  transcript c = Py.join " " (word <$> ws).


(** The prefix of a summary. *)
Definition summary_prefix (language : string) : string :=
  if decide (language = "it")
  then "Riassunto automatico della riunione:" +:+ Py.newline +:+ Py.newline
  else "Automatic meeting summary:" +:+ Py.newline +:+ Py.newline.


(** The dictionaries of [h'] are those of [h], each with its word and its
    speaker tag. *)
Definition same_words (h h' : heap) : Prop :=
  ∀ l, word <$> h' !! l = word <$> h !! l ∧ speaker <$> h' !! l = speaker <$> h !! l.


(** The grouping is first-fit: every part after the first starts with a
    segment that did not fit into the group before it. *)
Fixpoint first_fit {Frame} (current_chunk : list Frame)
    (parts : list (list (list Frame))) : Prop :=
  match parts with
  | [] => True
  | p :: rest =>
      match p with
      | [] => False
      | seg :: _ => MAX_CHUNK_DURATION_MS < len current_chunk + len seg
      end ∧ first_fit (concat p) rest
  end.

(** ** Worked examples *)

Module Examples.

Definition seconds (n : Z) (d : positive) : Qc := Q2Qc (n # d).

(** Two chunks: the first ends with speaker 2 after 2.5 s, the second
    starts with speaker 1. *)
Definition words1 : list segment :=
  [Segment "hello" (seconds 0 1) (seconds 3 2) 1;
   Segment "world" (seconds 3 2) (seconds 5 2) 2].
Definition words2 : list segment :=
  [Segment "again" (seconds 0 1) (seconds 1 1) 1].
Definition store12 : heap :=
  list_to_map (zip [0; 1; 2]%nat (words1 ++ words2)).
Definition chunk1 : chunk_result := ChunkResult [0; 1]%nat 2 "hello world".
Definition chunk2 : chunk_result := ChunkResult [2]%nat 1 "again".

(** Two chunks of one speaker: a word at 0-1 s, then a word at 0-2 s. *)
Definition words3 : list segment := [Segment "good" (seconds 0 1) (seconds 1 1) 1].
Definition words4 : list segment := [Segment "morning" (seconds 0 1) (seconds 2 1) 1].
Definition store34 : heap := list_to_map (zip [0; 1]%nat (words3 ++ words4)).
Definition chunk3 : chunk_result := ChunkResult [0]%nat 1 "good".
Definition chunk4 : chunk_result := ChunkResult [1]%nat 1 "morning".

(** A chunk whose first word ends after its last word. *)
Definition wordsA : list segment :=
  [Segment "a" (seconds 0 1) (seconds 5 1) 1;
   Segment "b" (seconds 1 1) (seconds 2 1) 1].
Definition wordsB : list segment :=
  [Segment "c" (seconds 0 1) (seconds 1 1) 1].
Definition storeAB : heap :=
  list_to_map (zip [0; 1; 2]%nat (wordsA ++ wordsB)).
Definition chunkA : chunk_result := ChunkResult [0; 1]%nat 1 "a b".
Definition chunkB : chunk_result := ChunkResult [2]%nat 1 "c".

(** Three chunk results with local speaker counts 2, 5 and 3. *)
Definition chunks253 : list chunk_result :=
  [ChunkResult [0; 1]%nat 2 "hello world"; ChunkResult [2]%nat 5 "again";
   ChunkResult [] 3 ""].


(** Recordings, one frame per millisecond: speech at -10 dB, room noise at
    -90 dB. *)
Definition speech (ms : N) : list SilenceModel.Frame := repeat (-10) (N.to_nat ms).
Definition pause (ms : N) : list SilenceModel.Frame := repeat (-90) (N.to_nat ms).

(** 405 s: two stretches of speech around a pause of five seconds. *)
Definition recording_with_pause : list SilenceModel.Frame :=
  speech 200000 ++ pause 5000 ++ speech 200000.

(** 360 s of speech without a pause. *)
Definition unbroken_recording : list SilenceModel.Frame := speech 360000.

(** 4 s of speech. *)
Definition short_recording : list SilenceModel.Frame := speech 4000.

(** A recognition service that rejects the second request it gets; the
    world is the number of requests so far. *)
Definition recognize_rejects_second (config : recognition_config)
    (audio : list Byte.byte) (timeout : Z) (requests : nat)
    : (exception + response) * nat :=
  (if decide (requests = 1%nat) then inl (ExternalError "RemoteRejected")
   else inr [RecognitionResult
               [Alternative [WordInfo "hi" (seconds 0 1) (seconds 1 2) 1]]],
   S requests).

Abbreviation job audio_file :=
  (transcribe_audio_file (World := nat) (λ _, None) (λ w, ("0000", w))
     (λ _ _ _ _ w, (inr (), w)) inr (λ _ _ a, a) SilenceModel.dBFS
     SilenceModel.split_on_silence SilenceModel.export recognize_rejects_second
     audio_file "en" "talk.mp3").

End Examples.

Import Examples.

(** ** Worked examples of a whole job *)

Module Scenarios.
Import Examples.

(** A response of two results; the first has two alternatives, of which
    only the first is read. *)
Definition meeting : response :=
  [RecognitionResult
     [Alternative [WordInfo "good" (seconds 0 1) (seconds 1 2) 1;
                   WordInfo "morning" (seconds 1 2) (seconds 1 1) 1];
      Alternative [WordInfo "mourning" (seconds 0 1) (seconds 1 1) 1]];
   RecognitionResult
     [Alternative [WordInfo "hello" (seconds 3 2) (seconds 2 1) 2]]].

(** The store after the three words of [meeting] were collected. *)
Definition meeting_store : heap :=
  list_to_map (zip [0; 1; 2]%nat (segment_of <$> response_words meeting)).

(** A response whose second result has no alternative. *)
Definition broken_meeting : response :=
  [RecognitionResult [Alternative [WordInfo "good" (seconds 0 1) (seconds 1 2) 1]];
   RecognitionResult []].

(** A database that accepts every call and keeps a log of them. *)
Inductive db_call :=
  | SetStatus (transcript_id status : string) (kwargs : list (string * field_value))
  | AddUsage (user_id : string) (seconds : Z).

(** The outside world of the examples: whether the Vertex AI client can be
    created, and the log of the database. *)
Record outside := Outside { ai_available : bool; calls : list db_call }.

Definition log (c : db_call) (w : outside) : (exception + unit) * outside :=
  (inr (), {| ai_available := ai_available w; calls := calls w ++ [c] |}).

(** A decoder that rejects the empty file and reads one frame per byte. *)
Definition decode (content : list Byte.byte) : exception + list Byte.byte :=
  match content with
  | [] => inl (ExternalError "CouldntDecodeError")
  | _ => inr content
  end.

(** A recognition service that answers [meeting] to every request. *)
Definition recognize (config : recognition_config) (audio : list Byte.byte)
    (timeout : Z) (w : outside) : (exception + response) * outside :=
  (inr meeting, w).

Definition create_client (w : outside) : (exception + unit) * outside :=
  (if ai_available w then inr () else inl (ExternalError "DefaultCredentialsError"), w).

(** The pipeline and the background task of transcript ["t-1"], owned by
    ["user-1"], in this world. *)
Abbreviation pipeline content :=
  (transcribe_audio_file (World := outside) (Frame := Byte.byte)
     (λ _, None) (λ w, ("0000", w)) (λ _ _ _ _ w, (inr (), w)) decode
     (λ _ _ a, a) (λ _, 0%Qc) (λ a _ _ _, [a]) (λ a, a) recognize
     content "en" "talk.mp3").

Abbreviation task content :=
  (process_audio_background (World := outside) (Frame := Byte.byte)
     (λ _, None) (λ w, ("0000", w)) (λ _ _ _ _ w, (inr (), w)) decode
     (λ _ _ a, a) (λ _, 0%Qc) (λ a _ _ _, [a]) (λ a, a) recognize create_client
     (λ id status kwargs, log (SetStatus id status kwargs))
     (λ _ w, (inr (Some "user-1"), w))
     (λ user_id seconds, log (AddUsage user_id seconds))
     "t-1" content "talk.mp3" "en").

(** The job of a recording in which silence splitting finds no sound. *)
Abbreviation silent_job audio :=
  (transcribe_audio_file (World := nat) (File := list SilenceModel.Frame)
     (λ _, None) (λ w, ("0000", w)) (λ _ _ _ _ w, (inr (), w)) inr
     (λ _ _ a, a) SilenceModel.dBFS (λ _ _ _ _, []) SilenceModel.export
     recognize_rejects_second audio "en" "talk.mp3").

End Scenarios.

(** * Proofs *)

(** ** Maxima *)

Lemma max2_spec a b :
  (a ≤ Py.max2 a b)%Qc ∧ (b ≤ Py.max2 a b)%Qc ∧ (Py.max2 a b = a ∨ Py.max2 a b = b).
Proof.
  unfold Py.max2. case_decide as H.
  - split_and!; [by apply Qclt_le_weak | done | by right].
  - apply Qcle_ngt in H. split_and!; [done | done | by left].
Qed.

Lemma foldl_max2_is_max l x : is_max (x :: l) (foldl Py.max2 x l).
Proof.
  revert x. induction l as [|y l IH]; intros x; simpl.
  - split; [left|]. by intros z ->%list_elem_of_singleton.
  - destruct (IH (Py.max2 x y)) as [Hin Hle].
    destruct (max2_spec x y) as (Hx & Hy & Hor).
    assert (Py.max2 x y ≤ foldl Py.max2 (Py.max2 x y) l)%Qc as Hm
      by (apply Hle; left).
    split.
    + apply elem_of_cons in Hin as [->|Hin].
      * destruct Hor as [-> | ->]; [left|right; left].
      * by do 2 right.
    + intros z Hz.
      apply elem_of_cons in Hz as [->|Hz]; [by etrans|].
      apply elem_of_cons in Hz as [->|Hz]; [by etrans|].
      apply Hle. by right.
Qed.

Lemma Py_max_is_max l m : Py.max l = Some m → is_max l m.
Proof. destruct l; intros; simplify_eq/=. apply foldl_max2_is_max. Qed.

Lemma Py_max_is_Some l : l ≠ [] → is_Some (Py.max l).
Proof. destruct l; [done|]. by eexists. Qed.

Lemma is_max_unique l m1 m2 : is_max l m1 → is_max l m2 → m1 = m2.
Proof. intros [H1 H1'] [H2 H2']. apply (anti_symm Qcle); auto. Qed.

Lemma is_max_shift l m off :
  is_max l m → is_max ((λ x, x + off)%Qc <$> l) (m + off)%Qc.
Proof.
  intros [Hin Hle]. split.
  - by apply (list_elem_of_fmap_2 (λ x, x + off)%Qc).
  - intros x (y & -> & Hy)%list_elem_of_fmap. apply Qcplus_le_mono_r. auto.
Qed.

Lemma max_end_offset_is_max ws :
  ws ≠ [] → is_max (end_time <$> ws) (max_end_offset ws).
Proof.
  induction ws as [|w ws IH]; [done|]. intros _.
  destruct ws as [|w' ws].
  - simpl. split; [left|]. by intros x ->%list_elem_of_singleton.
  - destruct IH as [Hin Hle]; [done|].
    change (max_end_offset (w :: w' :: ws)) with
      (if decide (end_time w ≤ max_end_offset (w' :: ws))%Qc
       then max_end_offset (w' :: ws) else end_time w).
    rewrite fmap_cons. case_decide as H.
    + split; [by right|]. intros x [->|Hx]%elem_of_cons; auto.
    + apply Qclt_nge, Qclt_le_weak in H.
      split; [left|]. intros x [->|Hx]%elem_of_cons; [done|].
      etrans; [by apply Hle|done].
Qed.

(** ** The store *)

Lemma Forall2_impl_elem {A B} (P Q : A → B → Prop) l k :
  Forall2 P l k → (∀ x y, x ∈ l → P x y → Q x y) → Forall2 Q l k.
Proof.
  induction 1 as [|x y l k HP _ IH]; intros HPQ; constructor.
  - apply HPQ; [left|done].
  - apply IH. intros ????. apply HPQ; [by right|done].
Qed.

(** A store that agrees with [h] on the references of [c] holds the same
    words there. *)
Lemma holds_agree (h h' : heap) c ws :
  (∀ l, l ∈ segments c → h' !! l = h !! l) → holds h c ws → holds h' c ws.
Proof.
  intros Hag Hh. eapply Forall2_impl_elem; [exact Hh|].
  intros l w Hl Hw. by rewrite Hag.
Qed.

Lemma adjust_segments_spec off locs ws (h : heap) all :
  NoDup locs →
  Forall2 (λ l w, h !! l = Some w) locs ws →
  ∃ h', adjust_segments off locs h all = Some (h', all ++ locs) ∧
        Forall2 (λ l w, h' !! l = Some (rebase off w)) locs ws ∧
        ∀ l, l ∉ locs → h' !! l = h !! l.
Proof.
  intros Hnd Hall. revert h all Hnd Hall.
  induction locs as [|l locs IH] in ws |- *; intros h all Hnd Hall.
  - apply Forall2_nil_inv_l in Hall as ->.
    exists h. simpl. rewrite app_nil_r. split_and!; [done|constructor|done].
  - apply Forall2_cons_inv_l in Hall as (w & ws' & Hl & Hall & ->).
    apply NoDup_cons in Hnd as [Hnin Hnd].
    simpl. rewrite Hl. simpl.
    destruct (IH ws' (<[l:=rebase off w]> h) (all ++ [l]) Hnd)
      as (h' & Hrun & Hreb & Hframe).
    { eapply Forall2_impl_elem; [exact Hall|]. intros l' w' Hl' Hw'.
      rewrite lookup_insert_ne; [done|]. by intros ->. }
    exists h'. split_and!.
    + by rewrite Hrun, <-app_assoc.
    + constructor; [|done]. rewrite Hframe by done. apply lookup_insert_eq.
    + intros l' Hl'. apply not_elem_of_cons in Hl' as [Hne Hl'].
      rewrite Hframe by done. by apply lookup_insert_ne.
Qed.

(** The same loop when dictionaries may be shared: it still runs to the end
    and keeps every reference valid. *)
Lemma adjust_segments_total off locs (h : heap) all :
  Forall (λ l, is_Some (h !! l)) locs →
  ∃ h', adjust_segments off locs h all = Some (h', all ++ locs) ∧
        ∀ l, is_Some (h !! l) → is_Some (h' !! l).
Proof.
  revert h all. induction locs as [|l locs IH]; intros h all Hall.
  - exists h. simpl. by rewrite app_nil_r.
  - apply Forall_cons in Hall as [[s Hs] Hall]. simpl. rewrite Hs. simpl.
    assert (∀ l', is_Some (h !! l') → is_Some (<[l:=rebase off s]> h !! l')) as Hmono.
    { intros l' Hl'. destruct (decide (l = l')) as [->|];
        [rewrite lookup_insert_eq; eauto | by rewrite lookup_insert_ne]. }
    destruct (IH (<[l:=rebase off s]> h) (all ++ [l])) as (h' & Hrun & Hdom).
    { eapply Forall_impl; [exact Hall|]. auto. }
    exists h'. split; [by rewrite Hrun, <-app_assoc | auto].
Qed.

Lemma max_end_time_rebased (h : heap) off locs ws :
  ws ≠ [] →
  Forall2 (λ l w, h !! l = Some (rebase off w)) locs ws →
  max_end_time h locs = Some (off + max_end_offset ws)%Qc.
Proof.
  intros Hne Hall. unfold max_end_time.
  assert (mapM (λ l, end_time <$> h !! l) locs
          = Some ((λ x, x + off)%Qc <$> (end_time <$> ws))) as ->.
  { apply mapM_Some. rewrite <-list_fmap_compose.
    apply Forall2_fmap_r. eapply Forall2_impl; [exact Hall|].
    intros l w ->. done. }
  simpl.
  destruct (Py_max_is_Some ((λ x, x + off)%Qc <$> (end_time <$> ws))) as [m Hm].
  { by destruct ws. }
  rewrite Hm. f_equal. rewrite Qcplus_comm.
  eapply is_max_unique; [by apply Py_max_is_max|].
  by apply is_max_shift, max_end_offset_is_max.
Qed.

Lemma max_end_time_total (h : heap) locs :
  locs ≠ [] → Forall (λ l, is_Some (h !! l)) locs → is_Some (max_end_time h locs).
Proof.
  intros Hne Hall. unfold max_end_time.
  destruct (mapM (λ l, end_time <$> h !! l) locs) as [ends|] eqn:Hends.
  - simpl. apply Py_max_is_Some. apply length_mapM in Hends.
    destruct ends, locs; done.
  - exfalso. cut (is_Some (mapM (λ l, end_time <$> h !! l) locs)).
    { rewrite Hends. by intros [? ?]. }
    apply mapM_is_Some. eapply Forall_impl; [exact Hall|].
    intros l [s Hs]. simpl. rewrite Hs. by eexists.
Qed.

(** ** The merge loop *)

Lemma merge_chunk_spec st c ws :
  NoDup (segments c) →
  holds (ms_heap st) c ws →
  ∃ h', merge_chunk st c =
          Some {| ms_heap := h';
                  all_segments := all_segments st ++ segments c;
                  total_duration := advance (total_duration st) ws;
                  max_speaker_count :=
                    Z.max (max_speaker_count st) (speaker_count c) |} ∧
        holds h' c (rebase (total_duration st) <$> ws) ∧
        ∀ l, l ∉ segments c → h' !! l = ms_heap st !! l.
Proof.
  intros Hnd Hh. unfold merge_chunk, holds in *.
  destruct (adjust_segments_spec (total_duration st) _ _ _ (all_segments st) Hnd Hh)
    as (h' & -> & Hreb & Hframe).
  exists h'. simpl. split_and!; [|by apply Forall2_fmap_r|done].
  destruct (segments c) as [|l locs] eqn:Hsegs.
  - apply Forall2_nil_inv_l in Hh as ->. done.
  - rewrite (max_end_time_rebased h' (total_duration st) (l :: locs) ws); [|  |done].
    + simpl. destruct ws; [by apply Forall2_nil_inv_r in Hh|done].
    + intros ->. by apply Forall2_nil_inv_r in Hh.
Qed.

Lemma merge_loop_spec chunks wss st :
  represents (ms_heap st) chunks wss →
  ∃ h', merge_loop chunks st =
          Some {| ms_heap := h';
                  all_segments := all_segments st ++ (chunks ≫= segments);
                  total_duration := foldl advance (total_duration st) wss;
                  max_speaker_count :=
                    foldl Z.max (max_speaker_count st) (speaker_count <$> chunks) |} ∧
        Forall2 (holds h') chunks (rebase_chunks (total_duration st) wss) ∧
        ∀ l, l ∉ chunks ≫= segments → h' !! l = ms_heap st !! l.
Proof.
  intros [Hnd Hall]. revert st Hnd Hall.
  induction chunks as [|c chunks IH] in wss |- *; intros st Hnd Hall.
  - apply Forall2_nil_inv_l in Hall as ->. exists (ms_heap st). simpl.
    rewrite app_nil_r. by destruct st.
  - apply Forall2_cons_inv_l in Hall as (ws & wss' & Hc & Hall & ->).
    rewrite bind_cons in Hnd. apply NoDup_app in Hnd as (Hndc & Hdisj & Hnd).
    destruct (merge_chunk_spec st c ws Hndc Hc) as (h1 & Hrun1 & Hreb1 & Hframe1).
    simpl. rewrite Hrun1. simpl.
    match goal with |- context [merge_loop chunks ?s] => set (st1 := s) end.
    destruct (IH wss' st1) as (h' & Hrun & Hreb & Hframe); [done| |].
    { eapply Forall2_impl_elem; [exact Hall|]. intros c' ws' Hc' Hh'.
      eapply holds_agree; [|exact Hh']. intros l Hl. simpl. apply Hframe1.
      intros Hlc. eapply Hdisj; [exact Hlc|].
      apply list_elem_of_bind. eauto. }
    exists h'. rewrite Hrun. simpl. split_and!.
    + by rewrite <-app_assoc.
    + constructor; [|done]. eapply holds_agree; [|exact Hreb1].
      intros l Hl. apply Hframe. intros Hlr. by eapply Hdisj.
    + intros l Hl. rewrite ?bind_cons in Hl.
      apply not_elem_of_app in Hl as [Hl1 Hl2].
      rewrite Hframe by done. simpl. by apply Hframe1.
Qed.

Lemma foldl_Zmax (a : Z) (l : list Z) :
  0 ≤ a → foldl Z.max a l = Z.max a (foldr Z.max 0 l).
Proof.
  revert a. induction l as [|x l IH]; intros a Ha; simpl; [lia|].
  rewrite IH by lia. lia.
Qed.

Lemma merge_loop_speaker_count chunks :
  foldl Z.max 0 (speaker_count <$> chunks) = max_local_speaker_count chunks.
Proof.
  unfold max_local_speaker_count. rewrite foldl_Zmax by done.
  generalize (speaker_count <$> chunks). intros l.
  assert (0 ≤ foldr Z.max 0 l); [|lia].
  induction l; simpl; lia.
Qed.

(** The merge of chunk results that stand for [wss], in terms of [wss]. *)
Lemma merge_transcript_chunks_spec h chunks wss :
  represents h chunks wss →
  ∃ h', merge_transcript_chunks chunks h =
          Some ({| transcript_text :=
                     render (Py.sorted start_time (concat (rebase_chunks 0%Qc wss)));
                   total_speaker_count := max_local_speaker_count chunks;
                   duration_seconds := Py.int (timeline_offset wss (length wss)) |},
                h') ∧
        Forall2 (holds h') chunks (rebase_chunks 0%Qc wss) ∧
        ∀ l, l ∉ chunks ≫= segments → h' !! l = h !! l.
Proof.
  intros Hrep. unfold merge_transcript_chunks.
  destruct (merge_loop_spec chunks wss (initial_state h) Hrep)
    as (h' & -> & Hreb & Hframe).
  cbn [initial_state total_duration ms_heap] in Hreb, Hframe.
  exists h'. simpl. split_and!; [|done|done].
  assert (mapM (λ l, h' !! l) (chunks ≫= segments)
          = Some (concat (rebase_chunks 0%Qc wss))) as ->.
  { apply mapM_Some. clear -Hreb. revert Hreb.
    generalize (rebase_chunks 0%Qc wss). intros rs Hreb.
    induction Hreb as [|c ws chunks wss' Hc _ IH]; [constructor|].
    rewrite bind_cons. simpl. by apply Forall2_app. }
  simpl. rewrite merge_loop_speaker_count. unfold timeline_offset.
  by rewrite firstn_all.
Qed.

Lemma merge_chunk_total st c :
  Forall (λ l, is_Some (ms_heap st !! l)) (segments c) →
  ∃ h' total, merge_chunk st c =
          Some {| ms_heap := h';
                  all_segments := all_segments st ++ segments c;
                  total_duration := total;
                  max_speaker_count :=
                    Z.max (max_speaker_count st) (speaker_count c) |} ∧
        (segments c = [] → h' = ms_heap st ∧ total = total_duration st) ∧
        ∀ l, is_Some (ms_heap st !! l) → is_Some (h' !! l).
Proof.
  intros Hall. unfold merge_chunk.
  destruct (adjust_segments_total (total_duration st) _ _ (all_segments st) Hall)
    as (h' & Hrun & Hdom).
  rewrite Hrun. simpl.
  destruct (segments c) as [|l locs] eqn:Hsegs.
  - simpl in Hrun. simplify_eq. eexists _, _. split_and!; [done|done|done].
  - destruct (max_end_time_total h' (l :: locs)) as [m Hm]; [done| |].
    { eapply Forall_impl; [exact Hall|]. auto. }
    rewrite Hm. simpl. eexists _, _. split_and!; [done|done|done].
Qed.

Lemma merge_loop_total chunks st :
  stored (ms_heap st) chunks →
  ∃ h' total, merge_loop chunks st =
          Some {| ms_heap := h';
                  all_segments := all_segments st ++ (chunks ≫= segments);
                  total_duration := total;
                  max_speaker_count :=
                    foldl Z.max (max_speaker_count st) (speaker_count <$> chunks) |} ∧
        (Forall (λ c, segments c = []) chunks →
           h' = ms_heap st ∧ total = total_duration st) ∧
        ∀ l, is_Some (ms_heap st !! l) → is_Some (h' !! l).
Proof.
  revert st. induction chunks as [|c chunks IH]; intros st Hst.
  - exists (ms_heap st), (total_duration st). simpl. rewrite app_nil_r.
    by destruct st.
  - apply Forall_cons in Hst as [Hc Hst].
    destruct (merge_chunk_total st c Hc) as (h1 & t1 & Hrun1 & Hnil1 & Hdom1).
    simpl. rewrite Hrun1. simpl.
    match goal with |- context [merge_loop chunks ?s] => set (st1 := s) end.
    destruct (IH st1) as (h' & total & Hrun & Hnil & Hdom).
    { eapply Forall_impl; [exact Hst|]. intros c' Hc'.
      eapply Forall_impl; [exact Hc'|]. auto. }
    exists h', total. rewrite Hrun. simpl. split_and!.
    + by rewrite <-app_assoc.
    + intros [Hc0 Hrest]%Forall_cons.
      destruct (Hnil Hrest) as [-> ->]. by apply Hnil1.
    + auto.
Qed.

(** With every reference in the store the merge returns a result, also when
    dictionaries are shared between chunk results. *)
Lemma merge_transcript_chunks_total h chunks :
  stored h chunks →
  ∃ res h', merge_transcript_chunks chunks h = Some (res, h') ∧
            total_speaker_count res = max_local_speaker_count chunks.
Proof.
  intros Hst. unfold merge_transcript_chunks.
  destruct (merge_loop_total chunks (initial_state h) Hst)
    as (h' & total & -> & _ & Hdom).
  simpl.
  destruct (mapM (λ l, h' !! l) (chunks ≫= segments)) as [segs|] eqn:Hsegs.
  - simpl. eexists _, _. split; [done|]. simpl. apply merge_loop_speaker_count.
  - exfalso. cut (is_Some (mapM (λ l, h' !! l) (chunks ≫= segments))).
    { rewrite Hsegs. by intros [? ?]. }
    apply mapM_is_Some. apply Forall_forall.
    intros l (c & Hl & Hc)%list_elem_of_bind. apply Hdom. simpl.
    unfold stored in Hst. rewrite Forall_forall in Hst.
    specialize (Hst c Hc). rewrite Forall_forall in Hst. auto.
Qed.

Lemma represents_stored h chunks wss : represents h chunks wss → stored h chunks.
Proof.
  intros [_ Hall]. unfold stored.
  induction Hall as [|c ws chunks wss Hc _ IH]; constructor; [|done].
  clear -Hc. unfold holds in Hc.
  induction Hc; constructor; eauto.
Qed.

(** ** The timeline *)

Lemma timeline_offset_S wss i ws :
  wss !! i = Some ws →
  timeline_offset wss (S i) = advance (timeline_offset wss i) ws.
Proof.
  intros Hi. unfold timeline_offset.
  by rewrite (take_S_r _ _ _ Hi), foldl_snoc.
Qed.

Lemma rebase_chunks_lookup off wss i ws :
  wss !! i = Some ws →
  rebase_chunks off wss !! i = Some (rebase (foldl advance off (take i wss)) <$> ws).
Proof.
  revert off i. induction wss as [|ws' wss IH]; intros off [|i] Hi;
    simplify_eq/=; [done|]. by apply IH.
Qed.



Lemma rebase_0 w : rebase 0%Qc w = w.
Proof. destruct w. unfold rebase. simpl. by rewrite !Qcplus_0_r. Qed.


Lemma foldr_Zmax_upper (l : list Z) x : x ∈ l → x ≤ foldr Z.max 0 l.
Proof.
  induction l as [|y l IH]; [by intros ?%elem_of_nil|].
  intros [->|Hx]%elem_of_cons; simpl; [lia|]. specialize (IH Hx). lia.
Qed.

Lemma foldr_Zmax_attained (l : list Z) :
  l ≠ [] → Forall (λ x, 0 ≤ x) l → foldr Z.max 0 l ∈ l.
Proof.
  induction l as [|y l IH]; [done|]. intros _ [Hy Hl]%Forall_cons. simpl.
  destruct l as [|z l].
  - simpl. rewrite Z.max_l by done. left.
  - destruct (Z.max_spec y (foldr Z.max 0 (z :: l))) as [[_ ->]|[_ ->]].
    + right. by apply IH.
    + left.
Qed.

(** C5.  With every reference in the store, the merge returns a result whose
    [total_speaker_count] is the maximum of the chunks' local speaker counts
    (0 for no chunk): it bounds every local count, it is one of them when
    there is a chunk and no count is negative, it is 5 for the local counts
    2, 5, 3, and it is 0 for the empty sequence. *)
Theorem merge_speaker_count_is_max h chunks :
  stored h chunks →
  ∃ res h',
    merge_transcript_chunks chunks h = Some (res, h') ∧
    total_speaker_count res = max_local_speaker_count chunks ∧
    (∀ c, c ∈ chunks → speaker_count c ≤ total_speaker_count res) ∧
    (chunks ≠ [] → Forall (λ c, 0 ≤ speaker_count c) chunks →
       ∃ c, c ∈ chunks ∧ speaker_count c = total_speaker_count res) ∧
    (speaker_count <$> chunks = [2; 5; 3] → total_speaker_count res = 5) ∧
    (chunks = [] → total_speaker_count res = 0).
Proof.
  intros Hst.
  destruct (merge_transcript_chunks_total h chunks Hst) as (res & h' & Hrun & Hcount).
  exists res, h'. rewrite Hcount. unfold max_local_speaker_count.
  split_and!; [done|done|..].
  - intros c Hc. apply foldr_Zmax_upper. by apply (list_elem_of_fmap_2 speaker_count).
  - intros Hne Hpos.
    destruct (proj1 (list_elem_of_fmap _ _ _)
                (foldr_Zmax_attained (speaker_count <$> chunks)
                   ltac:(by destruct chunks) ltac:(by apply Forall_fmap)))
      as (c & Hc & Hin).
    eauto.
  - by intros ->.
  - by intros ->.
Qed.


Lemma fmap_rebase_0 (ws : list segment) : rebase 0%Qc <$> ws = ws.
Proof. induction ws as [|w ws IH]; [done|]. by rewrite fmap_cons, rebase_0, IH. Qed.

(** C9, as amended.  For a chunk result [A] with words and a chunk result [B]
    whose first word starts at local offset 0, merging [[A]] and then merging
    [[A; B]] puts the first word of [B] at the largest end offset among the
    words of [A] (the first merge leaves the offsets of [A] as they were);
    this is the end offset of the last word of [A] when no word of [A] ends
    later than its last word. *)
Theorem merge_rebasing_consistent h A B wsA wsB :
  represents h [A; B] [wsA; wsB] →
  wsA ≠ [] →
  (∃ w, head wsB = Some w ∧ start_time w = 0%Qc) →
  ∃ resA h1 resAB h2 b m,
    merge_transcript_chunks [A] h = Some (resA, h1) ∧
    holds h1 A wsA ∧
    merge_transcript_chunks [A; B] h1 = Some (resAB, h2) ∧
    head (segments B) = Some b ∧
    is_max (end_time <$> wsA) m ∧
    start_time <$> h2 !! b = Some m ∧
    (∀ w, last wsA = Some w → (∀ w', w' ∈ wsA → (end_time w' ≤ end_time w)%Qc) →
          start_time <$> h2 !! b = Some (end_time w)).
Proof.
  intros Hrep HA (wb & HwB & Hstart).
  destruct Hrep as [Hnd Hall].
  apply Forall2_cons in Hall as [HhA Hall].
  apply Forall2_cons in Hall as [HhB _].
  simpl in Hnd. rewrite app_nil_r in Hnd.
  pose proof Hnd as (HndA & Hdisj & HndB)%NoDup_app.
  destruct (merge_transcript_chunks_spec h [A] [wsA]) as (h1 & Hrun1 & Hreb1 & Hframe1).
  { split; [by simpl; rewrite app_nil_r | by repeat constructor]. }
  apply Forall2_cons in Hreb1 as [HhA1 _]. rewrite fmap_rebase_0 in HhA1.
  assert (represents h1 [A; B] [wsA; wsB]) as Hrep1.
  { split; [by simpl; rewrite app_nil_r|]. repeat constructor; [done|].
    eapply holds_agree; [|exact HhB]. intros l Hl. apply Hframe1.
    simpl. rewrite app_nil_r. intros HlA. by eapply Hdisj. }
  destruct (merge_transcript_chunks_spec h1 [A; B] [wsA; wsB] Hrep1)
    as (h2 & Hrun2 & Hreb2 & _).
  apply Forall2_cons in Hreb2 as [_ Hreb2].
  apply Forall2_cons in Hreb2 as [HhB2 _].
  destruct wsB as [|wb' wsB]; simplify_eq/=.
  unfold holds in HhB2. rewrite ?fmap_cons in HhB2.
  apply Forall2_cons_inv_r in HhB2 as (b & bs & Hb & _ & HsegB).
  pose proof (max_end_offset_is_max wsA HA) as Hmax.
  assert (start_time <$> h2 !! b = Some (max_end_offset wsA)) as Hres.
  { rewrite Hb. simpl. rewrite Hstart. f_equal.
    assert (advance 0%Qc wsA = (0 + max_end_offset wsA)%Qc) as -> by by destruct wsA.
    by rewrite !Qcplus_0_l. }
  eexists _, h1, _, h2, b, (max_end_offset wsA).
  split_and!; [exact Hrun1|done|exact Hrun2|by rewrite HsegB|done|done|].
  intros w Hlast Hle. rewrite Hres. f_equal.
  eapply is_max_unique; [exact Hmax|]. split.
  - apply (list_elem_of_fmap_2 end_time). apply last_Some in Hlast as [l' ->].
    apply elem_of_app. right. left.
  - intros x (w' & -> & Hw')%list_elem_of_fmap. auto.
Qed.


(** ** Strings *)

Lemma string_app_cons a (s t : string) : String a s +:+ t = String a (s +:+ t).
Proof. done. Qed.

Lemma string_app_assoc (s1 s2 s3 : string) : (s1 +:+ s2) +:+ s3 = s1 +:+ (s2 +:+ s3).
Proof. induction s1 as [|a s1 IH]; [done|]. by rewrite !string_app_cons, IH. Qed.

Lemma string_app_nil_r (s : string) : s +:+ "" = s.
Proof. induction s as [|a s IH]; [done|]. by rewrite string_app_cons, IH. Qed.


(** ** Sorting *)

Section sorted.
Context {A : Type} (key : A → Qc).

Lemma insert_Permutation x l : Py.insert key x l ≡ₚ x :: l.
Proof.
  induction l as [|y l IH]; simpl; [done|].
  case_decide; [|done]. by rewrite IH, Permutation_swap.
Qed.

Lemma sorted_Permutation l : Py.sorted key l ≡ₚ l.
Proof.
  induction l as [|x l IH]; simpl; [done|].
  by rewrite insert_Permutation, IH.
Qed.





End sorted.

(** ** Rendering *)

Lemma render_loop_from segs text current_speaker :
  (foldl render_step (text, current_speaker) segs).1
  = text +:+ render_from current_speaker segs.
Proof.
  revert text current_speaker.
  induction segs as [|s segs IH]; intros text cur; simpl.
  - by rewrite string_app_nil_r.
  - case_decide as Hne.
    + rewrite IH. unfold label. destruct cur; by rewrite !string_app_assoc.
    + destruct cur as [n|]; [|done]. assert (n = speaker s) as -> by congruence.
      rewrite IH. by rewrite !string_app_assoc.
Qed.







(** ** The segmenter *)

Section segmenter.
Context {File Frame : Type}.
Variable from_file : File → exception + list Frame.
Variable set_frame_rate_and_channels : Z → Z → list Frame → list Frame.
Variable dBFS : list Frame → Qc.
Variable split_on_silence : list Frame → Z → Qc → Z → list (list Frame).
Variable export_flac : list Frame → list Byte.byte.

Lemma len_pos_iff (a : list Frame) : len a > 0 ↔ a ≠ [].
Proof.
  unfold len. destruct a as [|x a]; cbn [length]; split.
  - lia.
  - by intros [].
  - done.
  - lia.
Qed.

Lemma concat_filter_nonempty (l : list (list Frame)) :
  concat (filter (λ g, g ≠ []) l) = concat l.
Proof.
  induction l as [|g l IH]; [done|]. rewrite filter_cons.
  case_decide as Hg; [simpl; by rewrite IH|].
  destruct g; [exact IH|]. exfalso. first [by apply Hg | done].
Qed.

Lemma concat_concat (l : list (list (list Frame))) :
  concat (@concat Frame <$> l) = concat (concat l).
Proof.
  induction l as [|p l IH]; [done|].
  by rewrite fmap_cons; simpl; rewrite concat_app, IH.
Qed.

(** The grouping loop cuts the segments into consecutive parts: [p0]
    continues [current_chunk], every later part starts where adding its
    first segment would have exceeded the limit.  The parts that are not
    empty, but the last, are exported in order; the last one stays in
    [current_chunk]. *)
Lemma group_chunks_spec audio_chunks current_chunk chunks :
  ∃ (p0 : list (list Frame)) (parts : list (list (list Frame)))
    (pre : list (list Frame)) (current_chunk' : list Frame),
    group_chunks export_flac audio_chunks current_chunk chunks
      = (current_chunk', chunks ++ (export_flac <$> filter (λ g, g ≠ []) pre)) ∧
    p0 ++ concat parts = audio_chunks ∧
    (current_chunk ++ concat p0) :: (@concat Frame <$> parts) = pre ++ [current_chunk'] ∧
    (p0 = [] ∨ len (current_chunk ++ concat p0) ≤ MAX_CHUNK_DURATION_MS) ∧
    Forall (λ p, len (concat p) ≤ MAX_CHUNK_DURATION_MS ∨ ∃ seg, p = [seg]) parts.
Proof.
  revert current_chunk chunks.
  induction audio_chunks as [|seg rest IH]; intros cur chunks.
  - exists [], [], [], cur. simpl. rewrite !app_nil_r.
    split_and!. 1:done. 1:done. 1:done. 1:by left. constructor.
  - simpl. case_decide as Hfit.
    + destruct (IH (cur ++ seg) chunks) as (p0 & parts & pre & cur' & -> & <- & Hacc & Hb0 & Hb).
      exists (seg :: p0), parts, pre, cur'. simpl.
      rewrite <-Hacc, <-!app_assoc. split_and!; [done|done|done| |done].
      right. destruct Hb0 as [->|Hle]; [|by rewrite <-app_assoc in Hle].
      simpl. rewrite app_nil_r. unfold len in *. rewrite length_app. lia.
    + match goal with |- context [group_chunks _ rest seg ?c] =>
        destruct (IH seg c) as (p0 & parts & pre & cur' & -> & <- & Hacc & Hb0 & Hb) end.
      exists [], ((seg :: p0) :: parts), (cur :: pre), cur'. simpl.
      rewrite app_nil_r, <-Hacc. split_and!; [|done|done|by left|].
      * f_equal. rewrite filter_cons. case_decide as Hpos.
        -- rewrite decide_True by by apply len_pos_iff.
           by rewrite fmap_cons, <-app_assoc.
        -- rewrite decide_False; [done|]. by intros ?%len_pos_iff.
      * constructor; [|done]. destruct Hb0 as [->|Hle]; [right; eauto|by left].
Qed.

(** C2.  When the file decodes and the normalised audio is at most
    [MAX_CHUNK_DURATION_MS] long, the result is exactly one chunk, the
    export of the whole normalised buffer, whatever the loudness measure
    and the silence splitter are: they are not consulted. *)
Theorem short_audio_is_one_chunk audio_file audio :
  from_file audio_file = inr audio →
  len (set_frame_rate_and_channels 16000 1 audio) ≤ MAX_CHUNK_DURATION_MS →
  ∀ dBFS' split_on_silence',
    convert_and_split_audio from_file set_frame_rate_and_channels dBFS'
      split_on_silence' export_flac audio_file
    = inr [export_flac (set_frame_rate_and_channels 16000 1 audio)].
Proof.
  intros Hfile Hlen dBFS' split'. unfold convert_and_split_audio.
  rewrite Hfile. by rewrite decide_True.
Qed.

(** What the segmenter returns for audio longer than the limit: the segments
    of silence splitting, cut into consecutive parts; a part is within the
    limit unless it is one segment. *)
Lemma convert_and_split_long_audio audio_file audio :
  from_file audio_file = inr audio →
  let audio' := set_frame_rate_and_channels 16000 1 audio in
  let segs := split_on_silence audio' 1000 (dBFS audio' - Qc_of_Z 14)%Qc 500 in
  MAX_CHUNK_DURATION_MS < len audio' →
  ∃ parts : list (list (list Frame)),
    convert_and_split_audio from_file set_frame_rate_and_channels dBFS
      split_on_silence export_flac audio_file
    = inr (export_flac <$> filter (λ g, g ≠ []) (@concat Frame <$> parts)) ∧
    concat parts = segs ∧
    Forall (λ p, len (concat p) ≤ MAX_CHUNK_DURATION_MS ∨ ∃ seg, p = [seg]) parts.
Proof.
  intros Hfile audio' segs Hlong. unfold convert_and_split_audio.
  rewrite Hfile. fold audio'. rewrite decide_False by lia. fold segs.
  destruct (group_chunks_spec segs [] [])
    as (p0 & parts & pre & cur' & -> & Hparts & Hacc & Hb0 & Hb).
  exists (p0 :: parts). rewrite fmap_cons. simpl in Hacc. rewrite Hacc.
  split_and!.
  - f_equal. rewrite filter_app, fmap_app, filter_cons, filter_nil. simpl.
    case_decide as Hpos.
    + by rewrite decide_True by by apply len_pos_iff.
    + rewrite decide_False; [by rewrite app_nil_r|]. by intros ?%len_pos_iff.
  - done.
  - constructor; [|done]. left. destruct Hb0 as [->|Hle]; [|done].
    unfold MAX_CHUNK_DURATION_MS. by compute.
Qed.

(** C3, as amended.  When the normalised audio is longer than
    [MAX_CHUNK_DURATION_MS], the chunks are built from the segments that
    silence splitting returns, and from nothing else: the segments are cut
    into consecutive parts, each chunk is the concatenation of one part,
    in order, parts without audio give no chunk, and the concatenation of
    all chunks is the concatenation of all segments.  No segment is
    dropped, repeated or reordered; audio that silence splitting leaves
    out of its segments is in no chunk. *)
Theorem chunks_partition_segments audio_file audio :
  from_file audio_file = inr audio →
  let audio' := set_frame_rate_and_channels 16000 1 audio in
  let segs := split_on_silence audio' 1000 (dBFS audio' - Qc_of_Z 14)%Qc 500 in
  MAX_CHUNK_DURATION_MS < len audio' →
  ∃ (parts : list (list (list Frame))) (groups : list (list Frame)),
    convert_and_split_audio from_file set_frame_rate_and_channels dBFS
      split_on_silence export_flac audio_file = inr (export_flac <$> groups) ∧
    concat parts = segs ∧
    groups = filter (λ g, g ≠ []) (@concat Frame <$> parts) ∧
    concat groups = concat segs.
Proof.
  intros Hfile audio' segs Hlong.
  destruct (convert_and_split_long_audio audio_file audio Hfile Hlong)
    as (parts & Hrun & Hparts & _).
  exists parts, (filter (λ g, g ≠ []) (@concat Frame <$> parts)).
  split_and!; [done|done|done|].
  fold segs in Hparts. by rewrite concat_filter_nonempty, concat_concat, Hparts.
Qed.
End segmenter.

Section segmenter_gap.
Context {File Frame : Type}.
Variable from_file : File → exception + list Frame.
Variable set_frame_rate_and_channels : Z → Z → list Frame → list Frame.
Variable dBFS : list Frame → Qc.
Variable split_on_silence : list Frame → Z → Qc → Z → list (list Frame).
Variable export_flac : list Frame → list Byte.byte.

(** C4, on the code.  When the normalised audio is longer than
    [MAX_CHUNK_DURATION_MS] and silence splitting returns it whole, as its
    only segment, the result is one chunk that holds the whole audio: the
    grouping loop never cuts inside a segment. *)
Theorem unbroken_audio_is_one_oversized_chunk audio_file audio :
  from_file audio_file = inr audio →
  let audio' := set_frame_rate_and_channels 16000 1 audio in
  MAX_CHUNK_DURATION_MS < len audio' →
  split_on_silence audio' 1000 (dBFS audio' - Qc_of_Z 14)%Qc 500 = [audio'] →
  convert_and_split_audio from_file set_frame_rate_and_channels dBFS
    split_on_silence export_flac audio_file = inr [export_flac audio'].
Proof.
  intros Hfile audio' Hlong Hsplit. unfold convert_and_split_audio.
  rewrite Hfile. fold audio'. rewrite decide_False by lia. rewrite Hsplit.
  cbn [group_chunks].
  change (len (@nil Frame)) with 0.
  rewrite decide_False by lia.
  rewrite decide_True by (unfold MAX_CHUNK_DURATION_MS in *; lia).
  by rewrite decide_False by lia.
Qed.
End segmenter_gap.

(** ** The driver *)

Section driver.
Context {World File Frame : Type}.
Variable getenv : string → option string.
Variable uuid4 : World → string * World.
Variable upload_from_file :
  string → string → File → string → World → (exception + unit) * World.
Variable from_file : File → exception + list Frame.
Variable set_frame_rate_and_channels : Z → Z → list Frame → list Frame.
Variable dBFS : list Frame → Qc.
Variable split_on_silence : list Frame → Z → Qc → Z → list (list Frame).
Variable export_flac : list Frame → list Byte.byte.
Variable long_running_recognize :
  recognition_config → list Byte.byte → Z → World → (exception + response) * World.

Lemma bind_inr {S A B} (m : M S A) (f : A → M S B) s x s' :
  m s = (inr x, s') → (m ≫= f) s = f x s'.
Proof. intros H. unfold mbind, M_bind. by rewrite H. Qed.

Lemma bind_inl {S A B} (m : M S A) (f : A → M S B) s e s' :
  m s = (inl e, s') → (m ≫= f) s = (inl e, s').
Proof. intros H. unfold mbind, M_bind. by rewrite H. Qed.

(** The loop stops at the first chunk whose transcription raises. *)
Lemma transcribe_chunks_first_error done_chunks chunk rest language acc s results s2 e s3 :
  transcribe_chunks long_running_recognize done_chunks language acc s
    = (inr results, s2) →
  transcribe_audio_chunk long_running_recognize chunk language s2 = (inl e, s3) →
  transcribe_chunks long_running_recognize (done_chunks ++ chunk :: rest) language acc s
    = (inl e, s3).
Proof.
  revert acc s. induction done_chunks as [|c cs IH]; intros acc s Hdone Hfail.
  - simpl in Hdone. injection Hdone as <- <-. simpl.
    by rewrite (bind_inl _ _ _ _ _ Hfail).
  - simpl in *.
    destruct (transcribe_audio_chunk long_running_recognize c language s)
      as [[e'|r] s1] eqn:Hc.
    + by rewrite (bind_inl _ _ _ _ _ Hc) in Hdone.
    + rewrite (bind_inr _ _ _ _ _ Hc) in Hdone.
      rewrite (bind_inr _ _ _ _ _ Hc). by apply IH.
Qed.

(** C7.  When the upload and the segmentation succeed, the chunks before
    [chunk] are transcribed and the transcription of [chunk] raises [e],
    the job raises [e] in the state that the failing call left: no result
    is returned, the chunks after [chunk] are not considered, and the
    error is the one of the first failing chunk. *)
Theorem job_fails_with_first_chunk_error
    audio_file language original_filename s0 gcs_uri s1
    done_chunks chunk rest results s2 e s3 :
  upload_audio_to_gcs getenv uuid4 upload_from_file audio_file original_filename s0
    = (inr gcs_uri, s1) →
  convert_and_split_audio from_file set_frame_rate_and_channels dBFS
    split_on_silence export_flac audio_file = inr (done_chunks ++ chunk :: rest) →
  transcribe_chunks long_running_recognize done_chunks language [] s1
    = (inr results, s2) →
  transcribe_audio_chunk long_running_recognize chunk language s2 = (inl e, s3) →
  transcribe_audio_file getenv uuid4 upload_from_file from_file
    set_frame_rate_and_channels dBFS split_on_silence export_flac
    long_running_recognize audio_file language original_filename s0
  = (inl e, s3).
Proof.
  intros Hup Hsplit Hdone Hfail. unfold transcribe_audio_file.
  rewrite (bind_inr _ _ _ _ _ Hup).
  rewrite (bind_inr (lift _) _ s1 (done_chunks ++ chunk :: rest) s1)
    by (unfold lift; by rewrite Hsplit).
  apply bind_inl. by eapply transcribe_chunks_first_error.
Qed.
End driver.

(** ** The results of a job *)

Lemma allocated_fresh h0 h segs ws :
  allocated h0 h segs ws →
  (fresh (dom h) ∉ segs) ∧ h0 !! fresh (dom h) = None ∧ h !! fresh (dom h) = None.
Proof.
  intros (_ & _ & Hh & Hext).
  assert (h !! fresh (dom h) = None) as Hnone
    by (apply not_elem_of_dom, is_fresh).
  split_and!; [| |done].
  - intros Hin. apply list_elem_of_lookup in Hin as [i Hi].
    destruct (Forall2_lookup_l _ _ _ _ _ Hh Hi) as (w & _ & Hw). congruence.
  - destruct (h0 !! fresh (dom h)) as [w|] eqn:Hw; [|done].
    rewrite <-Hext in Hw by (rewrite Hw; eauto). congruence.
Qed.

Lemma add_word_allocated h0 h segs ws n w :
  allocated h0 h segs ws →
  ∃ h' l n',
    add_word (h, segs, n) w = (h', segs ++ [l], n') ∧
    allocated h0 h' (segs ++ [l]) (ws ++ [segment_of w]).
Proof.
  intros Hal. destruct (allocated_fresh _ _ _ _ Hal) as (Hsegs & Hh0 & Hh).
  destruct Hal as (Hnd & Hnew & Hholds & Hext).
  eexists _, (fresh (dom h)), _. split; [reflexivity|]. split_and!.
  - apply NoDup_app. split_and!; [done| |apply NoDup_singleton].
    intros l Hl ->%list_elem_of_singleton. done.
  - apply Forall_app. split; [done|]. by repeat constructor.
  - apply Forall2_app.
    + eapply Forall2_impl_elem; [exact Hholds|]. intros l' w' Hl' Hw'.
      rewrite lookup_insert_ne; [done|]. by intros <-.
    + repeat constructor. apply lookup_insert_eq.
  - intros l' Hl'. rewrite lookup_insert_ne; [by apply Hext|].
    intros <-. rewrite Hh0 in Hl'. by destruct Hl'.
Qed.

Lemma foldl_add_word_allocated h0 h segs ws n words :
  allocated h0 h segs ws →
  ∃ h' new n',
    foldl add_word (h, segs, n) words = (h', segs ++ new, n') ∧
    allocated h0 h' (segs ++ new) (ws ++ (segment_of <$> words)).
Proof.
  revert h segs ws n. induction words as [|w words IH]; intros h segs ws n Hal.
  - exists h, [], n. simpl. by rewrite !app_nil_r.
  - destruct (add_word_allocated _ _ _ _ n w Hal) as (h1 & l & n1 & Hadd & Hal1).
    destruct (IH _ _ _ n1 Hal1) as (h' & new & n' & Hrun & Hal').
    exists h', (l :: new), n'. cbn [foldl]. rewrite Hadd, Hrun.
    rewrite fmap_cons. by rewrite <-!app_assoc in *.
Qed.

Lemma process_results_allocated h0 resp h segs ws n h' segs' n' :
  allocated h0 h segs ws →
  process_results resp (h, segs, n) = (inr (), (h', segs', n')) →
  ∃ ws', allocated h0 h' segs' ws'.
Proof.
  revert h segs ws n. induction resp as [|r resp IH]; intros h segs ws n Hal Hrun.
  - simpl in Hrun. simplify_eq. eauto.
  - simpl in Hrun. destruct (alternatives r) as [|alt alts]; [done|].
    destruct (foldl_add_word_allocated _ _ _ _ n (alt_words alt) Hal)
      as (h1 & new & n1 & Hfold & Hal1).
    rewrite Hfold in Hrun. eauto.
Qed.


Section results.
Context {World File Frame : Type}.
Variable getenv : string → option string.
Variable uuid4 : World → string * World.
Variable upload_from_file :
  string → string → File → string → World → (exception + unit) * World.
Variable from_file : File → exception + list Frame.
Variable set_frame_rate_and_channels : Z → Z → list Frame → list Frame.
Variable dBFS : list Frame → Qc.
Variable split_on_silence : list Frame → Z → Qc → Z → list (list Frame).
Variable export_flac : list Frame → list Byte.byte.
Variable long_running_recognize :
  recognition_config → list Byte.byte → Z → World → (exception + response) * World.

Lemma collect_segments_allocated resp (s s' : state (World := World)) c :
  collect_segments resp s = (inr c, s') →
  ∃ ws, allocated (store s) (store s') (segments c) ws.
Proof.
  unfold collect_segments. intros Hrun.
  destruct (process_results resp (store s, [], 0)) as [r [[h segs] n]] eqn:Hproc.
  destruct r as [e|[]]; [done|].
  destruct (process_results_allocated (store s) resp (store s) [] [] 0 h segs n)
    as [ws Hal]; [|done|].
  { split_and!; [constructor|constructor|constructor|done]. }
  destruct (mapM _ segs); simplify_eq/=. eauto.
Qed.

Lemma transcribe_audio_chunk_allocated audio_chunk language
    (s s' : state (World := World)) c :
  transcribe_audio_chunk long_running_recognize audio_chunk language s = (inr c, s') →
  ∃ ws, allocated (store s) (store s') (segments c) ws.
Proof.
  unfold transcribe_audio_chunk, mbind, M_bind, external. intros Hrun.
  destruct (long_running_recognize _ audio_chunk 900 (world s)) as [[e|resp] w];
    [done|].
  by apply collect_segments_allocated in Hrun.
Qed.

(** The chunk results of a job stand for word sequences: every word is a
    dictionary of its own. *)
Lemma transcribe_chunks_represents audio_chunks language acc wss0
    (s s' : state (World := World)) chunk_results :
  represents (store s) acc wss0 →
  transcribe_chunks long_running_recognize audio_chunks language acc s
    = (inr chunk_results, s') →
  ∃ wss, represents (store s') chunk_results wss.
Proof.
  revert acc wss0 s. induction audio_chunks as [|chunk rest IH];
    intros acc wss0 s Hrep Hrun.
  - simpl in Hrun. injection Hrun as <- <-. eauto.
  - simpl in Hrun. unfold mbind, M_bind in Hrun.
    destruct (transcribe_audio_chunk long_running_recognize chunk language s)
      as [[e|c] s1] eqn:Hc; [done|].
    destruct (transcribe_audio_chunk_allocated _ _ _ _ _ Hc)
      as (ws & Hnd & Hnew & Hholds & Hext).
    destruct Hrep as [Hnd0 Hall0].
    assert (∀ c0 l, c0 ∈ acc → l ∈ segments c0 → is_Some (store s !! l)) as Hin.
    { intros c0 l Hc0 Hl. apply list_elem_of_lookup in Hc0 as [i Hi].
      destruct (Forall2_lookup_l _ _ _ _ _ Hall0 Hi) as (ws0 & _ & Hh0).
      apply list_elem_of_lookup in Hl as [j Hj].
      destruct (Forall2_lookup_l _ _ _ _ _ Hh0 Hj) as (w & _ & Hw). eauto. }
    apply (IH (acc ++ [c]) (wss0 ++ [ws]) s1); [|done]. split.
    + rewrite bind_app. simpl. rewrite app_nil_r. apply NoDup_app.
      split_and!; [done| |done].
      intros l (c0 & Hl & Hc0)%list_elem_of_bind Hlc.
      rewrite Forall_forall in Hnew. specialize (Hnew l Hlc).
      destruct (Hin c0 l Hc0 Hl) as [w Hw]. congruence.
    + apply Forall2_app; [|by repeat constructor].
      eapply Forall2_impl_elem; [exact Hall0|]. intros c0 ws0 Hc0 Hh0.
      eapply holds_agree; [|exact Hh0]. intros l Hl. apply Hext. eauto.
Qed.

(** [InvalidReference] is not an outcome of the code: the references that
    [transcribe_audio_chunk] reads are the ones it has just allocated. *)
Lemma collect_segments_valid resp (s s' : state (World := World)) :
  collect_segments resp s ≠ (inl InvalidReference, s').
Proof.
  unfold collect_segments.
  destruct (process_results resp (store s, [], 0)) as [r [[h segs] n]] eqn:Hproc.
  destruct r as [e|[]].
  - assert (e = IndexError) as ->; [|done].
    clear -Hproc. revert Hproc. generalize (store s, @nil loc, 0).
    induction resp as [|r resp IH]; intros st Hproc; [done|].
    simpl in Hproc. destruct (alternatives r); [by simplify_eq|eauto].
  - destruct (process_results_allocated (store s) resp (store s) [] [] 0 h segs n)
      as (ws & _ & _ & Hholds & _); [|done|].
    { split_and!; [constructor|constructor|constructor|done]. }
    rewrite (proj2 (mapM_Some _ segs (word <$> ws))); [done|].
    apply Forall2_fmap_r. eapply Forall2_impl; [exact Hholds|].
    by intros l w ->.
Qed.

(** A job whose upload, segmentation and transcriptions succeed returns the
    merged result. *)
Lemma job_returns_merged_result audio_file language original_filename
    (s0 s1 s2 : state (World := World)) gcs_uri audio_chunks chunk_results :
  upload_audio_to_gcs getenv uuid4 upload_from_file audio_file original_filename s0
    = (inr gcs_uri, s1) →
  convert_and_split_audio from_file set_frame_rate_and_channels dBFS
    split_on_silence export_flac audio_file = inr audio_chunks →
  transcribe_chunks long_running_recognize audio_chunks language [] s1
    = (inr chunk_results, s2) →
  ∃ final_result h,
    merge_transcript_chunks chunk_results (store s2) = Some (final_result, h) ∧
    transcribe_audio_file getenv uuid4 upload_from_file from_file
      set_frame_rate_and_channels dBFS split_on_silence export_flac
      long_running_recognize audio_file language original_filename s0
    = (inr (final_result, gcs_uri), {| world := world s2; store := h |}).
Proof.
  intros Hup Hsplit Hdone.
  destruct (transcribe_chunks_represents _ _ [] [] _ _ _
              ltac:(split; constructor) Hdone) as [wss Hrep].
  destruct (merge_transcript_chunks_total (store s2) chunk_results
              (represents_stored _ _ _ Hrep)) as (res & h & Hmerge & _).
  exists res, h. split; [done|]. unfold transcribe_audio_file.
  rewrite (bind_inr _ _ _ _ _ Hup).
  rewrite (bind_inr (lift _) _ s1 audio_chunks s1) by (unfold lift; by rewrite Hsplit).
  rewrite (bind_inr _ _ _ _ _ Hdone).
  unfold mbind, M_bind, merge_in_store. by rewrite Hmerge.
Qed.
End results.

(** ** The examples, run *)

Lemma represents_store12 : represents store12 [chunk1; chunk2] [words1; words2].
Proof.
  split; [by apply (bool_decide_unpack _)|].
  repeat constructor.
Defined.

Lemma represents_storeAB : represents storeAB [chunkA; chunkB] [wordsA; wordsB].
Proof.
  split; [by apply (bool_decide_unpack _)|].
  repeat constructor.
Defined.


(** One speaker on both sides of a chunk boundary: one label, three seconds. *)
Example one_speaker_across_chunks :
  fst <$> merge_transcript_chunks [chunk3; chunk4] store34 =
  Some {| transcript_text := "Speaker 1: good morning";
          total_speaker_count := 1; duration_seconds := 3 |}.
Proof. reflexivity. Qed.

Lemma merge_speaker_count_is_max_witness :
  stored store12 chunks253 ∧
  ∃ res h',
    merge_transcript_chunks chunks253 store12 = Some (res, h') ∧
    total_speaker_count res = 5.
Proof.
  assert (stored store12 chunks253) as Hst by (repeat constructor; by eexists).
  split; [exact Hst|].
  destruct (merge_speaker_count_is_max store12 chunks253 Hst)
    as (res & h' & Hrun & _ & _ & _ & H253 & _).
  exists res, h'. split; [exact Hrun|]. by apply H253.
Defined.





(** C9: the first word of [chunkA] ends at 5 s, its last word at 2 s; the
    word of [chunkB] is put at 5 s. *)
Lemma rebased_start_is_not_last_end :
  ∃ resA h1 resAB h2 last_of_A first_of_B,
    merge_transcript_chunks [chunkA] storeAB = Some (resA, h1) ∧
    merge_transcript_chunks [chunkA; chunkB] h1 = Some (resAB, h2) ∧
    h1 !! 1%nat = Some last_of_A ∧
    h2 !! 2%nat = Some first_of_B ∧
    end_time last_of_A = seconds 2 1 ∧
    start_time first_of_B = seconds 5 1 ∧
    start_time first_of_B ≠ end_time last_of_A.
Proof.
  eexists _, _, _, _, _, _.
  split; [by vm_compute|]. split; [by vm_compute|].
  split; [by vm_compute|]. split; [by vm_compute|].
  split_and!.
  - by apply Qc_is_canon.
  - by apply Qc_is_canon.
  - intros H. apply (f_equal this) in H. by vm_compute in H.
Qed.

Lemma merge_rebasing_consistent_witness :
  represents storeAB [chunkA; chunkB] [wordsA; wordsB] ∧
  wordsA ≠ [] ∧
  (∃ w, head wordsB = Some w ∧ start_time w = 0%Qc) ∧
  ∃ resA h1 resAB h2,
    merge_transcript_chunks [chunkA] storeAB = Some (resA, h1) ∧
    merge_transcript_chunks [chunkA; chunkB] h1 = Some (resAB, h2) ∧
    is_max (end_time <$> wordsA) (seconds 5 1) ∧
    start_time <$> h2 !! 2%nat = Some (seconds 5 1).
Proof.
  assert (∃ w, head wordsB = Some w ∧ start_time w = 0%Qc) as HB
    by (eexists; split; [done|by apply Qc_is_canon]).
  split; [exact represents_storeAB|]. split; [done|]. split; [exact HB|].
  destruct (merge_rebasing_consistent storeAB chunkA chunkB wordsA wordsB
              represents_storeAB ltac:(done) HB)
    as (resA & h1 & resAB & h2 & b & m & HrunA & _ & HrunAB & Hb & Hmax & Hstart & _).
  injection Hb as <-.
  assert (m = seconds 5 1) as ->.
  { eapply is_max_unique; [exact Hmax|]. split.
    - left.
    - intros x Hx. repeat (apply elem_of_cons in Hx as [->|Hx]); [done..|].
      by apply elem_of_nil in Hx. }
  by exists resA, h1, resAB, h2.
Defined.


Lemma short_audio_is_one_chunk_witness :
  len short_recording ≤ MAX_CHUNK_DURATION_MS ∧
  SilenceModel.split short_recording = inr [SilenceModel.export short_recording].
Proof.
  assert (len short_recording ≤ MAX_CHUNK_DURATION_MS) as Hlen by compute_done.
  split; [exact Hlen|].
  exact (short_audio_is_one_chunk (File := list SilenceModel.Frame) inr (λ _ _ a, a)
           SilenceModel.export short_recording short_recording eq_refl Hlen
           SilenceModel.dBFS SilenceModel.split_on_silence).
Defined.

(** C3: of a recording of 405 s with a pause of five seconds, the two chunks
    hold 401 s; four seconds of the pause are in no chunk. *)
Lemma pause_is_dropped :
  let chunks := [SilenceModel.export (speech 200000 ++ pause 500);
                 SilenceModel.export (pause 500 ++ speech 200000)] in
  SilenceModel.split recording_with_pause = inr chunks ∧
  len recording_with_pause = 405000 ∧
  foldr Z.add 0 ((λ c, Z.of_nat (length c)) <$> chunks) = 401000.
Proof. intros chunks. split; [|split]; compute_done. Qed.

Lemma chunks_partition_segments_witness :
  MAX_CHUNK_DURATION_MS < len recording_with_pause ∧
  ∃ groups : list (list SilenceModel.Frame),
    SilenceModel.split recording_with_pause = inr (SilenceModel.export <$> groups) ∧
    concat groups =
      concat (SilenceModel.split_on_silence recording_with_pause 1000
                (SilenceModel.dBFS recording_with_pause - Qc_of_Z 14)%Qc 500).
Proof.
  assert (MAX_CHUNK_DURATION_MS < len recording_with_pause) as Hlong by compute_done.
  split; [exact Hlong|].
  destruct (chunks_partition_segments (File := list SilenceModel.Frame) inr
              (λ _ _ a, a) SilenceModel.dBFS SilenceModel.split_on_silence
              SilenceModel.export recording_with_pause recording_with_pause
              eq_refl Hlong)
    as (parts & groups & Hrun & _ & _ & Hcat).
  exists groups. split; [exact Hrun | exact Hcat].
Defined.

Lemma unbroken_audio_is_one_oversized_chunk_witness :
  MAX_CHUNK_DURATION_MS < len unbroken_recording ∧
  SilenceModel.split_on_silence unbroken_recording 1000
    (SilenceModel.dBFS unbroken_recording - Qc_of_Z 14)%Qc 500
    = [unbroken_recording] ∧
  SilenceModel.split unbroken_recording = inr [SilenceModel.export unbroken_recording] ∧
  Z.of_nat (length (SilenceModel.export unbroken_recording)) = 360000.
Proof.
  assert (MAX_CHUNK_DURATION_MS < len unbroken_recording) as Hlong by compute_done.
  assert (SilenceModel.split_on_silence unbroken_recording 1000
            (SilenceModel.dBFS unbroken_recording - Qc_of_Z 14)%Qc 500
          = [unbroken_recording]) as Hsplit by compute_done.
  split; [exact Hlong|]. split; [exact Hsplit|]. split; [|compute_done].
  exact (unbroken_audio_is_one_oversized_chunk (File := list SilenceModel.Frame) inr
           (λ _ _ a, a) SilenceModel.dBFS SilenceModel.split_on_silence
           SilenceModel.export unbroken_recording unbroken_recording
           eq_refl Hlong Hsplit).
Defined.

Lemma job_fails_with_first_chunk_error_witness :
  let c1 := SilenceModel.export (speech 200000 ++ pause 500) in
  let c2 := SilenceModel.export (pause 500 ++ speech 200000) in
  let s0 := State 0%nat ∅ in
  let hi := {[ 0%nat := Segment "hi" (seconds 0 1) (seconds 1 2) 1 ]} in
  SilenceModel.split recording_with_pause = inr ([c1] ++ c2 :: []) ∧
  transcribe_chunks recognize_rejects_second [c1] "en" [] s0
    = (inr [ChunkResult [0%nat] 1 "hi"], State 1%nat hi) ∧
  transcribe_audio_chunk recognize_rejects_second c2 "en" (State 1%nat hi)
    = (inl (ExternalError "RemoteRejected"), State 2%nat hi) ∧
  job recording_with_pause s0
    = (inl (ExternalError "RemoteRejected"), State 2%nat hi).
Proof.
  intros c1 c2 s0 hi.
  assert (SilenceModel.split recording_with_pause = inr ([c1] ++ c2 :: [])) as Hsplit
    by compute_done.
  assert (transcribe_chunks recognize_rejects_second [c1] "en" [] s0
          = (inr [ChunkResult [0%nat] 1 "hi"], State 1%nat hi)) as Hdone
    by (vm_compute; reflexivity).
  assert (transcribe_audio_chunk recognize_rejects_second c2 "en" (State 1%nat hi)
          = (inl (ExternalError "RemoteRejected"), State 2%nat hi)) as Hfail
    by (vm_compute; reflexivity).
  split; [exact Hsplit|]. split; [exact Hdone|]. split; [exact Hfail|].
  exact (job_fails_with_first_chunk_error (λ _, None) (λ w, ("0000", w))
           (λ _ _ _ _ w, (inr (), w)) inr (λ _ _ a, a) SilenceModel.dBFS
           SilenceModel.split_on_silence SilenceModel.export
           recognize_rejects_second recording_with_pause "en" "talk.mp3" s0
           "gs://meeting-transcription-audio/audio/0000/talk.mp3" s0
           [c1] c2 [] _ _ _ _ eq_refl Hsplit Hdone Hfail).
Defined.

(** * Further properties *)

(** ** One recognition response *)

Lemma add_word_count st w :
  (add_word st w).2 = Z.max st.2 (wi_speaker_tag w).
Proof. destruct st as [[h segs] n]. simpl. case_decide; lia. Qed.

Lemma foldl_add_word_count st words :
  (foldl add_word st words).2 = foldl Z.max st.2 (wi_speaker_tag <$> words).
Proof.
  revert st. induction words as [|w words IH]; intros st; [done|].
  cbn [foldl fmap list_fmap]. by rewrite IH, add_word_count.
Qed.

Lemma response_words_cons r resp :
  response_words (r :: resp)
  = match alternatives r with alt :: _ => alt_words alt | [] => [] end
    ++ response_words resp.
Proof. done. Qed.

Lemma process_results_complete resp st :
  Forall (λ r, alternatives r ≠ []) resp →
  process_results resp st = (inr (), foldl add_word st (response_words resp)).
Proof.
  revert st. induction resp as [|r resp IH]; intros st Hall; [done|].
  apply Forall_cons in Hall as [Hr Hall]. rewrite response_words_cons. simpl.
  destruct (alternatives r) as [|alt alts]; [done|].
  by rewrite foldl_app, IH.
Qed.

Lemma process_results_index_error resp st :
  Exists (λ r, alternatives r = []) resp →
  ∃ st', process_results resp st = (inl IndexError, st').
Proof.
  revert st. induction resp as [|r resp IH]; intros st Hex.
  - by apply Exists_nil in Hex.
  - simpl. destruct (alternatives r) as [|alt alts] eqn:Halt; [eauto|].
    apply Exists_cons in Hex as [Hr|Hex]; [congruence|]. by apply IH.
Qed.

Lemma alternatives_dec (resp : response) :
  Forall (λ r, alternatives r ≠ []) resp ∨ Exists (λ r, alternatives r = []) resp.
Proof.
  induction resp as [|r resp [IH|IH]].
  - left. constructor.
  - destruct (alternatives r) eqn:Hr.
    + right. by left.
    + left. constructor; [|done]. by rewrite Hr.
  - right. by right.
Qed.

Lemma max_speaker_tag_segment_of (words : list word_info) :
  max_speaker_tag (segment_of <$> words) = foldr Z.max 0 (wi_speaker_tag <$> words).
Proof. unfold max_speaker_tag. by rewrite <-list_fmap_compose. Qed.

Lemma foldr_Zmax_nonneg (l : list Z) : 0 ≤ foldr Z.max 0 l.
Proof. induction l; simpl; lia. Qed.

(** What [collect_segments] returns for a response whose results all have
    an alternative. *)
Lemma collect_segments_complete {World} resp (s : state (World := World)) :
  Forall (λ r, alternatives r ≠ []) resp →
  ∃ c h',
    collect_segments resp s = (inr c, {| world := world s; store := h' |}) ∧
    allocated (store s) h' (segments c) (segment_of <$> response_words resp) ∧
    summarises c (segment_of <$> response_words resp).
Proof.
  intros Hall. unfold collect_segments.
  rewrite process_results_complete by done.
  destruct (foldl_add_word_allocated (store s) (store s) [] [] 0 (response_words resp))
    as (h' & new & n' & Hfold & Hal).
  { split_and!; [constructor|constructor|constructor|done]. }
  pose proof (foldl_add_word_count (store s, [], 0) (response_words resp)) as Hn.
  rewrite Hfold in *. simpl in Hal, Hn |- *.
  destruct Hal as (Hnd & Hnew & Hholds & Hext).
  rewrite (proj2 (mapM_Some _ new (word <$> (segment_of <$> response_words resp)))).
  2:{ apply Forall2_fmap_r. eapply Forall2_impl; [exact Hholds|]. by intros l w ->. }
  eexists _, h'. split; [reflexivity|]. split; [done|]. split; [|done].
  simpl. rewrite Hn, max_speaker_tag_segment_of, foldl_Zmax by done.
  pose proof (foldr_Zmax_nonneg (wi_speaker_tag <$> response_words resp)). lia.
Qed.

Section chunk.
Context {World : Type}.
Variable long_running_recognize :
  recognition_config → list Byte.byte → Z → World → (exception + response) * World.



Lemma transcribe_audio_chunk_returns audio_chunk language
    (s s' : state (World := World)) c :
  transcribe_audio_chunk long_running_recognize audio_chunk language s = (inr c, s') →
  ∃ ws, allocated (store s) (store s') (segments c) ws ∧ summarises c ws.
Proof.
  unfold transcribe_audio_chunk, mbind, M_bind, external. intros Hrun.
  destruct (long_running_recognize _ audio_chunk 900 (world s)) as [[e|resp] w];
    [done|].
  destruct (alternatives_dec resp) as [Hall|Hex].
  - destruct (collect_segments_complete resp {| world := w; store := store s |} Hall)
      as (c' & h' & Hrun' & Hal & Hsum).
    rewrite Hrun' in Hrun. simplify_eq. eauto.
  - unfold collect_segments in Hrun.
    destruct (process_results_index_error resp (store s, [], 0) Hex)
      as [[[h segs] n] Hproc].
    simpl in Hrun. rewrite Hproc in Hrun. done.
Qed.

End chunk.

(** ** The chunk results of a job *)



Section job.
Context {World File Frame : Type}.
Variable getenv : string → option string.
Variable uuid4 : World → string * World.
Variable upload_from_file :
  string → string → File → string → World → (exception + unit) * World.
Variable from_file : File → exception + list Frame.
Variable set_frame_rate_and_channels : Z → Z → list Frame → list Frame.
Variable dBFS : list Frame → Qc.
Variable split_on_silence : list Frame → Z → Qc → Z → list (list Frame).
Variable export_flac : list Frame → list Byte.byte.
Variable long_running_recognize :
  recognition_config → list Byte.byte → Z → World → (exception + response) * World.

Lemma transcribe_chunks_invariant audio_chunks language acc wss0
    (s s' : state (World := World)) chunk_results :
  represents (store s) acc wss0 →
  Forall2 summarises acc wss0 →
  transcribe_chunks long_running_recognize audio_chunks language acc s
    = (inr chunk_results, s') →
  ∃ wss, represents (store s') chunk_results wss ∧
         Forall2 summarises chunk_results wss ∧
         length chunk_results = (length acc + length audio_chunks)%nat ∧
         ∀ l, is_Some (store s !! l) → store s' !! l = store s !! l.
Proof.
  revert acc wss0 s. induction audio_chunks as [|chunk rest IH];
    intros acc wss0 s Hrep Hsum Hrun.
  - simpl in Hrun. injection Hrun as <- <-. exists wss0.
    split_and!; [done|done|simpl; lia|done].
  - simpl in Hrun. unfold mbind, M_bind in Hrun.
    destruct (transcribe_audio_chunk long_running_recognize chunk language s)
      as [[e|c] s1] eqn:Hc; [done|].
    destruct (transcribe_audio_chunk_returns _ _ _ _ _ _ Hc)
      as (ws & (Hnd & Hnew & Hholds & Hext) & Hcsum).
    destruct Hrep as [Hnd0 Hall0].
    assert (∀ c0 l, c0 ∈ acc → l ∈ segments c0 → is_Some (store s !! l)) as Hin.
    { intros c0 l Hc0 Hl. apply list_elem_of_lookup in Hc0 as [i Hi].
      destruct (Forall2_lookup_l _ _ _ _ _ Hall0 Hi) as (ws0 & _ & Hh0).
      apply list_elem_of_lookup in Hl as [j Hj].
      destruct (Forall2_lookup_l _ _ _ _ _ Hh0 Hj) as (w & _ & Hw). eauto. }
    destruct (IH (acc ++ [c]) (wss0 ++ [ws]) s1) as (wss & Hrep' & Hsum' & Hlen & Hold);
      [| |done|].
    + split.
      * rewrite bind_app. simpl. rewrite app_nil_r. apply NoDup_app.
        split_and!; [done| |done].
        intros l (c0 & Hl & Hc0)%list_elem_of_bind Hlc.
        rewrite Forall_forall in Hnew. specialize (Hnew l Hlc).
        destruct (Hin c0 l Hc0 Hl) as [w Hw]. congruence.
      * apply Forall2_app; [|by repeat constructor].
        eapply Forall2_impl_elem; [exact Hall0|]. intros c0 ws0 Hc0 Hh0.
        eapply holds_agree; [|exact Hh0]. intros l Hl. apply Hext. eauto.
    + apply Forall2_app; [done|]. constructor; [done|constructor].
    + exists wss. split_and!; [done|done| |].
      * rewrite Hlen, length_app. simpl. lia.
      * intros l Hl. rewrite Hold; [by apply Hext|]. rewrite Hext; done.
Qed.

(** X3.  The chunk results that the loop of [transcribe_audio_file] collects:
    one per audio chunk; every word of every chunk is a dictionary of its
    own, different from all others of the job; each chunk result reports
    the largest speaker tag of its own words and the join of its own
    words; and the dictionaries that were in the store before the loop are
    as they were. *)
Theorem transcribe_chunks_collects audio_chunks language
    (s s' : state (World := World)) chunk_results :
  transcribe_chunks long_running_recognize audio_chunks language [] s
    = (inr chunk_results, s') →
  ∃ wss, represents (store s') chunk_results wss ∧
         Forall2 summarises chunk_results wss ∧
         length chunk_results = length audio_chunks ∧
         ∀ l, is_Some (store s !! l) → store s' !! l = store s !! l.
Proof.
  intros Hrun.
  by apply (transcribe_chunks_invariant audio_chunks language [] [] s s' chunk_results
              ltac:(split; constructor) ltac:(constructor)).
Qed.


(** X5.  The file is uploaded before it is decoded.  When the upload
    succeeds and the file cannot be decoded, the job raises the decoder's
    exception in the state that the upload left: the uploaded object stays
    in the bucket, no recognition request is made and the store is
    untouched. *)
Theorem job_fails_when_file_is_undecodable audio_file language original_filename
    (s0 s1 : state (World := World)) gcs_uri e :
  upload_audio_to_gcs getenv uuid4 upload_from_file audio_file original_filename s0
    = (inr gcs_uri, s1) →
  from_file audio_file = inl e →
  store s1 = store s0 ∧
  transcribe_audio_file getenv uuid4 upload_from_file from_file
    set_frame_rate_and_channels dBFS split_on_silence export_flac
    long_running_recognize audio_file language original_filename s0
  = (inl e, s1).
Proof.
  intros Hup Hfile. split.
  - revert Hup. unfold upload_audio_to_gcs, mbind, M_bind, external, mret, M_ret.
    destruct (uuid4 (world s0)) as [u w1]. simpl.
    destruct (upload_from_file _ _ _ _ w1) as [[e'|[]] w2]; [done|].
    by intros [= _ <-].
  - unfold transcribe_audio_file. rewrite (bind_inr _ _ _ _ _ Hup).
    apply bind_inl. unfold lift, convert_and_split_audio. by rewrite Hfile.
Qed.
End job.

(** ** What the merge leaves alone *)

Lemma same_words_refl h : same_words h h.
Proof. by intros l. Qed.

Lemma same_words_trans h1 h2 h3 :
  same_words h1 h2 → same_words h2 h3 → same_words h1 h3.
Proof.
  intros H12 H23 l. destruct (H12 l) as [<- <-]. apply H23.
Qed.

Lemma same_words_rebase (h : heap) l s off :
  h !! l = Some s → same_words h (<[l := rebase off s]> h).
Proof.
  intros Hl l'. destruct (decide (l' = l)) as [->|Hne].
  - by rewrite lookup_insert_eq, Hl.
  - by rewrite lookup_insert_ne.
Qed.

Lemma adjust_segments_same_words off segs (h h' : heap) all all' :
  adjust_segments off segs h all = Some (h', all') →
  same_words h h' ∧ ∀ l, l ∉ segs → h' !! l = h !! l.
Proof.
  revert h all. induction segs as [|l segs IH]; intros h all Hrun.
  - simpl in Hrun. simplify_eq. split; [apply same_words_refl|done].
  - simpl in Hrun. destruct (h !! l) as [s|] eqn:Hl; [|done]. simpl in Hrun.
    destruct (IH _ _ Hrun) as [Hsame Hframe]. split.
    + eapply same_words_trans; [by apply same_words_rebase|done].
    + intros l' Hl'. apply not_elem_of_cons in Hl' as [Hne Hl'].
      rewrite Hframe by done. by rewrite lookup_insert_ne.
Qed.

Lemma merge_chunk_same_words st c st' :
  merge_chunk st c = Some st' →
  same_words (ms_heap st) (ms_heap st') ∧
  ∀ l, l ∉ segments c → ms_heap st' !! l = ms_heap st !! l.
Proof.
  unfold merge_chunk. intros Hrun.
  destruct (adjust_segments _ _ _ _) as [[h all]|] eqn:Hadj; [|done].
  simpl in Hrun.
  destruct (match segments c with [] => _ | _ => _ end) as [total|]; [|done].
  simpl in Hrun. simplify_eq. simpl. by eapply adjust_segments_same_words.
Qed.

Lemma merge_loop_same_words chunks st st' :
  merge_loop chunks st = Some st' →
  same_words (ms_heap st) (ms_heap st') ∧
  ∀ l, l ∉ chunks ≫= segments → ms_heap st' !! l = ms_heap st !! l.
Proof.
  revert st. induction chunks as [|c chunks IH]; intros st Hrun.
  - simpl in Hrun. simplify_eq. split; [apply same_words_refl|done].
  - simpl in Hrun. destruct (merge_chunk st c) as [st1|] eqn:Hc; [|done].
    simpl in Hrun. destruct (merge_chunk_same_words _ _ _ Hc) as [Hs1 Hf1].
    destruct (IH _ Hrun) as [Hs2 Hf2]. split.
    + by eapply same_words_trans.
    + intros l Hl. simpl in Hl. apply not_elem_of_app in Hl as [Hl1 Hl2].
      rewrite Hf2, Hf1; done.
Qed.

(** X6.  What the merge never does.  For chunk results whose references are
    in the store (the same dictionary may occur in several of them), the
    merge returns, and in the store it leaves: there are the same
    dictionaries as before, none added and none removed; every dictionary
    has the word and the speaker tag it had; and a dictionary that no chunk
    result references is unchanged. *)
Theorem merge_keeps_words_and_speakers h chunks :
  stored h chunks →
  ∃ res h',
    merge_transcript_chunks chunks h = Some (res, h') ∧
    dom h' = dom h ∧
    (∀ l w, h !! l = Some w →
       ∃ w', h' !! l = Some w' ∧ word w' = word w ∧ speaker w' = speaker w) ∧
    (∀ l, l ∉ chunks ≫= segments → h' !! l = h !! l).
Proof.
  intros Hst.
  destruct (merge_transcript_chunks_total h chunks Hst) as (res & h' & Hrun & _).
  exists res, h'. split; [done|].
  unfold merge_transcript_chunks in Hrun.
  destruct (merge_loop chunks (initial_state h)) as [st|] eqn:Hloop; [|done].
  simpl in Hrun. destruct (mapM _ _) as [segs|]; [|done]. simpl in Hrun. simplify_eq.
  destruct (merge_loop_same_words _ _ _ Hloop) as [Hsame Hframe]. simpl in *.
  split_and!; [| |done].
  - apply set_eq. intros l. rewrite !elem_of_dom.
    destruct (Hsame l) as [Hw _].
    destruct (ms_heap st !! l), (h !! l); simplify_eq/=; split; intros [? ?]; eauto; done.
  - intros l w Hl. destruct (Hsame l) as [Hw Hsp]. rewrite Hl in Hw, Hsp.
    destruct (ms_heap st !! l) as [w'|]; [|done]. simplify_eq/=. eauto.
Qed.

(** ** The duration *)

Lemma advance_plus off ws : advance off ws = (off + max_end_offset ws)%Qc.
Proof. destruct ws; [|done]. simpl. by rewrite Qcplus_0_r. Qed.


Lemma max_end_offset_upper ws w :
  w ∈ ws → (end_time w ≤ max_end_offset ws)%Qc.
Proof.
  intros Hw. assert (ws ≠ []) as Hne by (by intros ->; apply elem_of_nil in Hw).
  destruct (max_end_offset_is_max ws Hne) as [_ Hle]. apply Hle.
  by apply (list_elem_of_fmap_2 end_time).
Qed.

Lemma max_end_offset_nonneg ws :
  Forall (λ w, 0 ≤ end_time w)%Qc ws → (0 ≤ max_end_offset ws)%Qc.
Proof.
  destruct ws as [|w ws]; [done|]. intros Hall.
  etrans; [|apply (max_end_offset_upper _ w); left].
  by apply Forall_cons in Hall as [? _].
Qed.




(** ** Merging twice *)

Lemma length_rebase_chunks off wss : length (rebase_chunks off wss) = length wss.
Proof. revert off. induction wss as [|ws wss IH]; intros off; simpl; [done|]. by rewrite IH. Qed.


(** ** Chunk order *)






(** ** Chunks on the timeline *)

Lemma timeline_offset_mono wss i j :
  Forall (Forall (λ w, 0 ≤ end_time w)%Qc) wss →
  (i ≤ j)%nat → (timeline_offset wss i ≤ timeline_offset wss j)%Qc.
Proof.
  intros Hpos Hij. induction Hij as [|j Hij IH]; [done|].
  etrans; [exact IH|]. clear IH.
  destruct (wss !! j) as [ws|] eqn:Hj.
  - rewrite (timeline_offset_S _ _ _ Hj), advance_plus.
    rewrite <-(Qcplus_0_r (timeline_offset wss j)) at 1.
    apply Qcplus_le_compat; [done|]. apply max_end_offset_nonneg.
    rewrite Forall_forall in Hpos. apply Hpos. by eapply list_elem_of_lookup_2.
  - unfold timeline_offset. apply lookup_ge_None in Hj.
    by rewrite !take_ge by lia.
Qed.

(** X10.  The chunks do not overlap on the global timeline.  When no word
    has a negative start or end offset in its chunk, every word of a chunk
    ends, after the merge, no later than any word of a later chunk starts. *)
Theorem merged_chunks_do_not_overlap h chunks wss :
  represents h chunks wss →
  Forall (Forall (λ w, 0 ≤ start_time w ∧ 0 ≤ end_time w)%Qc) wss →
  ∃ res h',
    merge_transcript_chunks chunks h = Some (res, h') ∧
    ∀ i j c c' l l' w w',
      (i < j)%nat →
      chunks !! i = Some c → chunks !! j = Some c' →
      l ∈ segments c → l' ∈ segments c' →
      h' !! l = Some w → h' !! l' = Some w' →
      (end_time w ≤ start_time w')%Qc.
Proof.
  intros Hrep Hpos.
  destruct (merge_transcript_chunks_spec h chunks wss Hrep) as (h' & Hrun & Hholds & _).
  eexists _, h'. split; [exact Hrun|].
  intros i j c c' l l' w w' Hij Hi Hj Hl Hl' Hw Hw'.
  assert (Forall (Forall (λ w, 0 ≤ end_time w)%Qc) wss) as Hends.
  { eapply Forall_impl; [exact Hpos|]. intros ws Hws.
    eapply Forall_impl; [exact Hws|]. by intros ? [_ ?]. }
  assert (∀ k ck lk wk, chunks !! k = Some ck → lk ∈ segments ck → h' !! lk = Some wk →
            ∃ ws w0, wss !! k = Some ws ∧ w0 ∈ ws ∧
                     wk = rebase (timeline_offset wss k) w0) as Hfind.
  { intros k ck lk wk Hk Hlk Hwk.
    destruct (Forall2_lookup_l _ _ _ _ _ Hholds Hk) as (rws & Hrws & Hh).
    destruct Hrep as [_ Hall].
    destruct (Forall2_lookup_l _ _ _ _ _ Hall Hk) as (ws & Hws & _).
    rewrite (rebase_chunks_lookup _ _ _ _ Hws) in Hrws. simplify_eq.
    apply list_elem_of_lookup in Hlk as [n Hn].
    destruct (Forall2_lookup_l _ _ _ _ _ Hh Hn) as (rw & Hrw & Hlook).
    rewrite Hwk in Hlook. simplify_eq.
    apply list_lookup_fmap_Some in Hrw as (w0 & -> & Hw0).
    exists ws, w0. split_and!; [done| |done].
    by eapply list_elem_of_lookup_2. }
  destruct (Hfind i c l w Hi Hl Hw) as (ws & w0 & Hws & Hw0 & ->).
  destruct (Hfind j c' l' w' Hj Hl' Hw') as (ws' & w0' & Hws' & Hw0' & ->).
  simpl.
  assert (0 ≤ start_time w0')%Qc as Hstart.
  { rewrite Forall_forall in Hpos. specialize (Hpos ws' (list_elem_of_lookup_2 _ _ _ Hws')).
    rewrite Forall_forall in Hpos. by destruct (Hpos w0' Hw0'). }
  etrans; [|etrans; [apply (timeline_offset_mono wss (S i) j Hends); lia|]].
  - rewrite (timeline_offset_S _ _ _ Hws), advance_plus, (Qcplus_comm (timeline_offset wss i)).
    apply Qcplus_le_mono_r. by apply max_end_offset_upper.
  - rewrite <-(Qcplus_0_l (timeline_offset wss j)) at 1.
    by apply Qcplus_le_mono_r.
Qed.

(** ** The head of the transcript *)

Lemma lstrip_app_nonspace u a v :
  Py.isspace a = false → Py.lstrip (u +:+ String a v) = Py.lstrip u +:+ String a v.
Proof.
  intros Ha. induction u as [|b u IH].
  - simpl. by rewrite Ha.
  - rewrite string_app_cons. simpl. destruct (Py.isspace b); [done|].
    by rewrite string_app_cons.
Qed.

Lemma rev_app_append s t : String.rev_app s t = String.rev s +:+ t.
Proof.
  unfold String.rev. revert t. induction s as [|a s IH]; intros t; [done|].
  simpl. rewrite (IH (String a t)), (IH (String a "")).
  by rewrite string_app_assoc.
Qed.

Lemma rev_append s t : String.rev (s +:+ t) = String.rev t +:+ String.rev s.
Proof.
  induction s as [|a s IH].
  - by rewrite string_app_nil_r.
  - rewrite string_app_cons. unfold String.rev at 1 3. simpl.
    rewrite !rev_app_append, IH. by rewrite string_app_assoc.
Qed.

Lemma rev_rev s : String.rev (String.rev s) = s.
Proof.
  induction s as [|a s IH]; [done|].
  unfold String.rev at 2. simpl. rewrite rev_app_append, rev_append, IH. done.
Qed.

Lemma rstrip_app_nonspace x a y :
  Py.isspace a = false →
  Py.rstrip (x +:+ String a y) = x +:+ String a (Py.rstrip y).
Proof.
  intros Ha. unfold Py.rstrip.
  rewrite rev_append.
  change (String.rev (String a y)) with (String.rev_app y (String a "")).
  rewrite rev_app_append, string_app_assoc.
  change (String a "" +:+ String.rev x) with (String a (String.rev x)).
  rewrite lstrip_app_nonspace by done.
  rewrite rev_append.
  change (String.rev (String a (String.rev x)))
    with (String.rev_app (String.rev x) (String a "")).
  rewrite rev_app_append, rev_rev, string_app_assoc. done.
Qed.

Lemma render_cons s rest :
  render (s :: rest)
  = "Speaker " +:+ Py.str (speaker s) +:+ ":"
    +:+ Py.rstrip (" " +:+ word s +:+ " " +:+ render_from (Some (speaker s)) rest).
Proof.
  unfold render. rewrite render_loop_from.
  change ("" +:+ ?x) with x. cbn [render_from].
  rewrite decide_True by done. unfold label, Py.strip.
  change (Py.lstrip (("Speaker " +:+ ?x) +:+ ?y)) with (("Speaker " +:+ x) +:+ y).
  rewrite !string_app_assoc.
  change (": " +:+ ?x) with (String ":" (" " +:+ x)).
  rewrite <-(string_app_assoc "Speaker ").
  by rewrite rstrip_app_nonspace.
Qed.

(** X11.  The head of the transcript.  The text is empty exactly when no
    chunk has a word; otherwise it begins with the label of the speaker of
    the first word in the order of the global start offsets,
    ["Speaker N:"]. *)
Theorem transcript_begins_with_first_speaker h chunks wss :
  represents h chunks wss →
  ∃ res h',
    merge_transcript_chunks chunks h = Some (res, h') ∧
    (transcript_text res = "" ↔ concat wss = []) ∧
    (∀ w rest,
       Py.sorted start_time (concat (rebase_chunks 0%Qc wss)) = w :: rest →
       ∃ tail, transcript_text res
               = "Speaker " +:+ Py.str (speaker w) +:+ ":" +:+ tail).
Proof.
  intros Hrep.
  destruct (merge_transcript_chunks_spec h chunks wss Hrep) as (h' & Hrun & _).
  eexists _, h'. split; [exact Hrun|]. simpl.
  assert (∀ off, concat (rebase_chunks off wss) = [] ↔ concat wss = []) as Hnil.
  { clear. induction wss as [|ws wss IH]; intros off; [done|]. simpl.
    split; intros [H1 H2]%app_eq_nil.
    - apply fmap_nil_inv in H1 as ->. by rewrite (proj1 (IH _) H2).
    - rewrite H1. simpl. by apply IH. }
  split.
  - destruct (Py.sorted start_time (concat (rebase_chunks 0%Qc wss))) as [|w rest] eqn:Hs.
    + split; [|done]. intros _. apply (Hnil 0%Qc).
      symmetry. apply Permutation_nil_l. rewrite <-Hs. apply sorted_Permutation.
    + rewrite render_cons. split; [done|]. intros Hcat%(Hnil 0%Qc).
      rewrite Hcat in Hs. done.
  - intros w rest ->. rewrite render_cons. eauto.
Qed.

(** ** The chunks of long audio *)

Section grouping.
Context {File Frame : Type}.
Variable from_file : File → exception + list Frame.
Variable set_frame_rate_and_channels : Z → Z → list Frame → list Frame.
Variable dBFS : list Frame → Qc.
Variable split_on_silence : list Frame → Z → Qc → Z → list (list Frame).
Variable export_flac : list Frame → list Byte.byte.

Lemma length_filter_concat (parts : list (list (list Frame))) :
  (length (filter (λ g, g ≠ []) (@concat Frame <$> parts)) ≤ length (concat parts))%nat.
Proof.
  induction parts as [|p parts IH]; [done|].
  rewrite fmap_cons, filter_cons. simpl. rewrite length_app.
  case_decide as Hp; [|lia]. simpl.
  destruct p as [|seg p]; [done|]. simpl. lia.
Qed.

(** X12.  The chunks of audio longer than the limit: none is empty; each is
    at most [MAX_CHUNK_DURATION_MS] long or is one whole segment of silence
    splitting; there are at most as many chunks as segments.  So every
    chunk is within the limit when every segment is. *)
Theorem chunks_within_limit_or_one_segment audio_file audio :
  from_file audio_file = inr audio →
  let audio' := set_frame_rate_and_channels 16000 1 audio in
  let segs := split_on_silence audio' 1000 (dBFS audio' - Qc_of_Z 14)%Qc 500 in
  MAX_CHUNK_DURATION_MS < len audio' →
  ∃ groups : list (list Frame),
    convert_and_split_audio from_file set_frame_rate_and_channels dBFS
      split_on_silence export_flac audio_file = inr (export_flac <$> groups) ∧
    Forall (λ g, g ≠ [] ∧ (len g ≤ MAX_CHUNK_DURATION_MS ∨ g ∈ segs)) groups ∧
    (length groups ≤ length segs)%nat ∧
    (Forall (λ seg, len seg ≤ MAX_CHUNK_DURATION_MS) segs →
       Forall (λ g, len g ≤ MAX_CHUNK_DURATION_MS) groups).
Proof.
  intros Hfile audio' segs Hlong.
  destruct (convert_and_split_long_audio from_file set_frame_rate_and_channels dBFS
              split_on_silence export_flac audio_file audio Hfile Hlong)
    as (parts & Hrun & Hparts & Hbound).
  fold audio' in Hparts. fold segs in Hparts.
  exists (filter (λ g, g ≠ []) (@concat Frame <$> parts)).
  assert (Forall (λ g, g ≠ [] ∧ (len g ≤ MAX_CHUNK_DURATION_MS ∨ g ∈ segs))
            (filter (λ g, g ≠ []) (@concat Frame <$> parts))) as Hall.
  { apply Forall_forall. intros g [Hg Hin]%list_elem_of_filter.
    split; [done|]. apply list_elem_of_fmap in Hin as (p & -> & Hp).
    rewrite Forall_forall in Hbound. destruct (Hbound p Hp) as [Hle|[seg ->]].
    - by left.
    - right. simpl. rewrite app_nil_r. rewrite <-Hparts.
      apply list_elem_of_split in Hp as (l1 & l2 & ->).
      rewrite concat_app. simpl. apply elem_of_app. right. left. }
  split_and!; [done|done| |].
  - rewrite <-Hparts. apply length_filter_concat.
  - intros Hsegs. eapply Forall_impl; [exact Hall|]. intros g [_ [Hle|Hin]]; [done|].
    rewrite Forall_forall in Hsegs. by apply Hsegs.
Qed.

(** The grouping loop, with the reason for every cut. *)
Lemma group_chunks_first_fit audio_chunks current_chunk chunks :
  ∃ (p0 : list (list Frame)) (parts : list (list (list Frame)))
    (pre : list (list Frame)) (current_chunk' : list Frame),
    group_chunks export_flac audio_chunks current_chunk chunks
      = (current_chunk', chunks ++ (export_flac <$> filter (λ g, g ≠ []) pre)) ∧
    p0 ++ concat parts = audio_chunks ∧
    (current_chunk ++ concat p0) :: (@concat Frame <$> parts) = pre ++ [current_chunk'] ∧
    (p0 = [] ∨ len (current_chunk ++ concat p0) ≤ MAX_CHUNK_DURATION_MS) ∧
    first_fit (current_chunk ++ concat p0) parts.
Proof.
  revert current_chunk chunks.
  induction audio_chunks as [|seg rest IH]; intros cur chunks.
  - exists [], [], [], cur. simpl. rewrite !app_nil_r.
    split_and!; [done|done|done|by left|done].
  - simpl. case_decide as Hfit.
    + destruct (IH (cur ++ seg) chunks)
        as (p0 & parts & pre & cur' & -> & <- & Hacc & Hb0 & Hff).
      exists (seg :: p0), parts, pre, cur'. simpl.
      rewrite <-Hacc, <-!app_assoc in *. split_and!; [done|done|done| |done].
      right. destruct Hb0 as [->|Hle]; [|done].
      simpl. rewrite app_nil_r. unfold len in *. rewrite length_app. lia.
    + match goal with |- context [group_chunks _ rest seg ?c] =>
        destruct (IH seg c) as (p0 & parts & pre & cur' & -> & <- & Hacc & Hb0 & Hff) end.
      exists [], ((seg :: p0) :: parts), (cur :: pre), cur'. simpl.
      rewrite app_nil_r, <-Hacc. split_and!; [|done|done|by left|lia|done].
      f_equal. rewrite filter_cons. case_decide as Hpos.
      * rewrite decide_True by by apply len_pos_iff.
        by rewrite fmap_cons, <-app_assoc.
      * rewrite decide_False; [done|]. by intros ?%len_pos_iff.
Qed.

(** X13.  The chunks are packed first-fit.  The segments of silence
    splitting are cut into consecutive parts, one chunk per part that has
    audio; the first part is within the limit, and every later part starts
    with a segment that, added to the part before it, would have exceeded
    [MAX_CHUNK_DURATION_MS].  A cut is made for no other reason. *)
Theorem chunks_are_packed_first_fit audio_file audio :
  from_file audio_file = inr audio →
  let audio' := set_frame_rate_and_channels 16000 1 audio in
  let segs := split_on_silence audio' 1000 (dBFS audio' - Qc_of_Z 14)%Qc 500 in
  MAX_CHUNK_DURATION_MS < len audio' →
  ∃ (p0 : list (list Frame)) (parts : list (list (list Frame))),
    convert_and_split_audio from_file set_frame_rate_and_channels dBFS
      split_on_silence export_flac audio_file
    = inr (export_flac <$> filter (λ g, g ≠ []) (@concat Frame <$> (p0 :: parts))) ∧
    concat (p0 :: parts) = segs ∧
    len (concat p0) ≤ MAX_CHUNK_DURATION_MS ∧
    first_fit (concat p0) parts.
Proof.
  intros Hfile audio' segs Hlong. unfold convert_and_split_audio.
  rewrite Hfile. fold audio'. rewrite decide_False by lia. fold segs.
  destruct (group_chunks_first_fit segs [] [])
    as (p0 & parts & pre & cur' & -> & Hparts & Hacc & Hb0 & Hff).
  exists p0, parts. rewrite fmap_cons. simpl in Hacc, Hb0, Hff. rewrite Hacc.
  split_and!; [|done| |done].
  2:{ destruct Hb0 as [->|Hle]; [|done]. unfold MAX_CHUNK_DURATION_MS. by compute. }
  f_equal. rewrite filter_app, fmap_app, filter_cons, filter_nil. simpl.
  case_decide as Hpos.
  - by rewrite decide_True by by apply len_pos_iff.
  - rewrite decide_False; [by rewrite app_nil_r|]. by intros ?%len_pos_iff.
Qed.
End grouping.

Section silence.
Context {World File Frame : Type}.
Variable getenv : string → option string.
Variable uuid4 : World → string * World.
Variable upload_from_file :
  string → string → File → string → World → (exception + unit) * World.
Variable from_file : File → exception + list Frame.
Variable set_frame_rate_and_channels : Z → Z → list Frame → list Frame.
Variable dBFS : list Frame → Qc.
Variable split_on_silence : list Frame → Z → Qc → Z → list (list Frame).
Variable export_flac : list Frame → list Byte.byte.
Variable long_running_recognize :
  recognition_config → list Byte.byte → Z → World → (exception + response) * World.

(** X14.  Audio longer than the limit in which silence splitting finds no
    segment gives no chunk at all, and the job then returns, without any
    recognition request, an empty transcript with no speaker and duration
    0: the state is the one that the upload left. *)
Theorem silent_long_audio_gives_empty_transcript
    audio_file audio language original_filename
    (s0 s1 : state (World := World)) gcs_uri :
  upload_audio_to_gcs getenv uuid4 upload_from_file audio_file original_filename s0
    = (inr gcs_uri, s1) →
  from_file audio_file = inr audio →
  let audio' := set_frame_rate_and_channels 16000 1 audio in
  MAX_CHUNK_DURATION_MS < len audio' →
  split_on_silence audio' 1000 (dBFS audio' - Qc_of_Z 14)%Qc 500 = [] →
  convert_and_split_audio from_file set_frame_rate_and_channels dBFS
    split_on_silence export_flac audio_file = inr [] ∧
  transcribe_audio_file getenv uuid4 upload_from_file from_file
    set_frame_rate_and_channels dBFS split_on_silence export_flac
    long_running_recognize audio_file language original_filename s0
  = (inr ({| transcript_text := ""; total_speaker_count := 0;
             duration_seconds := 0 |}, gcs_uri), s1).
Proof.
  intros Hup Hfile audio' Hlong Hsplit.
  assert (convert_and_split_audio from_file set_frame_rate_and_channels dBFS
            split_on_silence export_flac audio_file = inr []) as Hconv.
  { unfold convert_and_split_audio. rewrite Hfile. fold audio'.
    rewrite decide_False by lia. rewrite Hsplit. cbn [group_chunks].
    change (len (@nil Frame)) with 0. by rewrite decide_False by lia. }
  split; [done|]. unfold transcribe_audio_file.
  rewrite (bind_inr _ _ _ _ _ Hup).
  rewrite (bind_inr (lift _) _ s1 [] s1) by (unfold lift; by rewrite Hconv).
  by destruct s1.
Qed.
End silence.

(** ** Splitting and joining *)

(** [sep.join] on lists of characters. *)
Lemma string_of_list_ascii_app (a b : list ascii) :
  String.string_of_list_ascii (a ++ b)
  = String.string_of_list_ascii a +:+ String.string_of_list_ascii b.
Proof. induction a as [|x a IH]; [done|]. simpl. by rewrite IH. Qed.

Lemma split_from_nonempty sep skip cur s : PyStr.split_from sep skip cur s ≠ [].
Proof.
  revert skip cur. induction s as [|a s IH]; intros skip cur; [done|].
  simpl. destruct skip; [|done]. by case_decide.
Qed.

Lemma split_from_skip sep skip cur s :
  (skip ≤ length s)%nat →
  PyStr.split_from sep skip cur s = PyStr.split_from sep 0 cur (drop skip s).
Proof.
  revert skip. induction s as [|a s IH]; intros skip Hle.
  - simpl in Hle. by replace skip with 0%nat by lia.
  - destruct skip as [|k]; [done|]. simpl. apply IH. simpl in Hle. lia.
Qed.

Lemma join_app sep (l1 l2 : list string) :
  l1 ≠ [] → l2 ≠ [] →
  Py.join sep (l1 ++ l2) = Py.join sep l1 +:+ sep +:+ Py.join sep l2.
Proof.
  intros H1 H2. induction l1 as [|x l1 IH]; [done|].
  destruct l1 as [|y l1].
  - simpl. by destruct l2.
  - change (Py.join sep ((x :: y :: l1) ++ l2))
      with (x +:+ sep +:+ Py.join sep ((y :: l1) ++ l2)).
    rewrite IH by done.
    change (Py.join sep (x :: y :: l1)) with (x +:+ sep +:+ Py.join sep (y :: l1)).
    by rewrite !string_app_assoc.
Qed.

Lemma split_from_join sep cur s :
  sep ≠ [] →
  Py.join (String.string_of_list_ascii sep)
    (String.string_of_list_ascii <$> PyStr.split_from sep 0 cur s)
  = String.string_of_list_ascii (reverse cur ++ s).
Proof.
  intros Hsep. remember (length s) as n eqn:Hn.
  assert (length s ≤ n)%nat as Hle by lia. clear Hn.
  revert s cur Hle. induction n as [|n IH]; intros s cur Hle.
  { destruct s; [simpl; by rewrite app_nil_r|simpl in Hle; lia]. }
  destruct s as [|a s]; [simpl; by rewrite app_nil_r|]. cbn [PyStr.split_from].
  case_decide as Hpre.
  - destruct Hpre as [k Hk].
    assert (length sep - 1 ≤ length s)%nat as Hlen.
    { apply (f_equal length) in Hk. rewrite length_app in Hk. simpl in Hk. lia. }
    rewrite split_from_skip by done. rewrite fmap_cons.
    destruct (PyStr.split_from sep 0 [] (drop (length sep - 1) s)) as [|p ps] eqn:Hsplit.
    { by apply split_from_nonempty in Hsplit. }
    change (Py.join ?sp (?x :: (String.string_of_list_ascii <$> (p :: ps))))
      with (x +:+ sp +:+ Py.join sp (String.string_of_list_ascii <$> (p :: ps))).
    rewrite <-Hsplit, IH by (rewrite length_drop; simpl in Hle; lia).
    rewrite <-!string_of_list_ascii_app. f_equal. f_equal.
    rewrite Hk. simpl. destruct sep as [|b sep]; [done|].
    simpl in *. injection Hk as -> ->. rewrite Nat.sub_0_r.
    by rewrite drop_app_length.
  - rewrite IH by (simpl in Hle; lia). f_equal.
    by rewrite reverse_cons, <-app_assoc.
Qed.

(** [sep.join(s.split(sep))] gives [s] back. *)
Lemma join_split sep s : sep ≠ "" → Py.join sep (PyStr.split sep s) = s.
Proof.
  intros Hsep. unfold PyStr.split.
  rewrite <-(String.string_of_list_ascii_of_string sep) at 1.
  rewrite split_from_join.
  - simpl. apply String.string_of_list_ascii_of_string.
  - intros Hnil. apply Hsep.
    by rewrite <-(String.string_of_list_ascii_of_string sep), Hnil.
Qed.

(** X15.  The summary is the transcript with one stretch cut out of its
    middle, after a prefix in the language of the meeting: the transcript
    is [a m b] and the summary is the prefix followed by [a b].  Nothing is
    cut ([m] is empty) when the transcript has at most five sentences, that
    is, at most four occurrences of a full stop followed by a space; the
    summary is then the prefix and the whole transcript. *)
Theorem basic_summary_cuts_the_middle transcript_text language :
  ∃ a m b,
    transcript_text = a +:+ m +:+ b ∧
    generate_basic_summary transcript_text language
      = summary_prefix language +:+ a +:+ b ∧
    ((length (PyStr.split ". " transcript_text) ≤ 5)%nat → m = "" ∧ b = "") ∧
    ((5 < length (PyStr.split ". " transcript_text))%nat →
       a = Py.join ". " (take 3 (PyStr.split ". " transcript_text)) +:+ ". " ∧
       b = Py.join ". " (drop (length (PyStr.split ". " transcript_text) - 2)
                           (PyStr.split ". " transcript_text))).
Proof.
  unfold generate_basic_summary. fold (summary_prefix language).
  pose proof (join_split ". " transcript_text ltac:(done)) as Hjoin.
  set (sentences := PyStr.split ". " transcript_text) in *.
  clearbody sentences. case_decide as Hn.
  - exists transcript_text, "", "". rewrite !string_app_nil_r, Hjoin.
    split_and!; [done|done|done|intros; lia].
  - remember (length sentences) as n eqn:Hlen.
    exists (Py.join ". " (take 3 sentences) +:+ ". "),
           (Py.join ". " (take (n - 5) (drop 3 sentences)) +:+ ". "),
           (Py.join ". " (drop (n - 2) sentences)).
    assert (take 3 sentences ≠ []) as H3.
    { intros H%(f_equal length). rewrite length_take, <-Hlen in H. cbn [length] in H. lia. }
    assert (drop (n - 2) sentences ≠ []) as H2.
    { intros H%(f_equal length). rewrite length_drop, <-Hlen in H. cbn [length] in H. lia. }
    assert (take (n - 5) (drop 3 sentences) ≠ []) as Hm.
    { intros H%(f_equal length). rewrite length_take, length_drop, <-Hlen in H.
      cbn [length] in H. lia. }
    split_and!; [| |by intros ?|done].
    + rewrite <-Hjoin at 1.
      rewrite <-(take_drop 3 sentences) at 1.
      rewrite <-(take_drop (n - 5) (drop 3 sentences)) at 1.
      rewrite drop_drop. replace (3 + (n - 5))%nat with (n - 2)%nat by lia.
      rewrite join_app; [|done|].
      2:{ intros [H _]%app_eq_nil. done. }
      rewrite join_app by done.
      by rewrite !string_app_assoc.
    + rewrite join_app by done. by rewrite !string_app_assoc.
Qed.

(** ** The background task *)

Lemma attempt_inr {S A B} (m : Attempt S A) (f : A → Attempt S B) s x s' :
  m s = (inr x, s') → (m ≫= f) s = f x s'.
Proof. intros H. unfold mbind, Attempt_bind. by rewrite H. Qed.

Lemma attempt_inl {S A B} (m : Attempt S A) (f : A → Attempt S B) s e s' :
  m s = (inl e, s') → (m ≫= f) s = (inl e, s').
Proof. intros H. unfold mbind, Attempt_bind. by rewrite H. Qed.

Lemma raised_inr {S A} (m : M S A) s x s' :
  m s = (inr x, s') → raised m s = (inr x, s').
Proof. intros H. unfold raised. by rewrite H. Qed.

Lemma raised_inl {S A} (m : M S A) s e s' :
  m s = (inl e, s') → raised m s = (inl (Raised e), s').
Proof. intros H. unfold raised. by rewrite H. Qed.

Lemma external_run {World A} (f : World → (exception + A) * World)
    (s : state (World := World)) r w :
  f (world s) = (r, w) → external f s = (r, {| world := w; store := store s |}).
Proof. intros H. unfold external. by rewrite H. Qed.

Section task.
Context {World Frame : Type}.
Variable getenv : string → option string.
Variable uuid4 : World → string * World.
Variable upload_from_file :
  string → string → list Byte.byte → string → World → (exception + unit) * World.
Variable from_file : list Byte.byte → exception + list Frame.
Variable set_frame_rate_and_channels : Z → Z → list Frame → list Frame.
Variable dBFS : list Frame → Qc.
Variable split_on_silence : list Frame → Z → Qc → Z → list (list Frame).
Variable export_flac : list Frame → list Byte.byte.
Variable long_running_recognize :
  recognition_config → list Byte.byte → Z → World → (exception + response) * World.
Variable prediction_service_client : World → (exception + unit) * World.
Variable update_transcript_status :
  string → string → list (string * field_value) → World → (exception + unit) * World.
Variable query_transcript : string → World → (exception + option string) * World.
Variable update_usage : string → Z → World → (exception + unit) * World.

(** X16.  A job that fails is recorded as an error and nothing else.  When
    the status update to ["processing"] succeeds and the pipeline raises
    (a failed upload, an undecodable file, a failed chunk), the task does
    not raise: what remains to be done is the status update to ["error"],
    in the state that the pipeline left.  The update to ["done"] and the
    usage update are not made. *)
Theorem failed_job_is_marked_error transcript_id audio_file_content
    original_filename language (s0 s2 : state (World := World)) w1 e :
  update_transcript_status transcript_id "processing" [] (world s0) = (inr (), w1) →
  transcribe_audio_file getenv uuid4 upload_from_file from_file
    set_frame_rate_and_channels dBFS split_on_silence export_flac
    long_running_recognize audio_file_content language original_filename
    {| world := w1; store := store s0 |} = (inl e, s2) →
  process_audio_background getenv uuid4 upload_from_file from_file
    set_frame_rate_and_channels dBFS split_on_silence export_flac
    long_running_recognize prediction_service_client update_transcript_status
    query_transcript update_usage
    transcript_id audio_file_content original_filename language s0
  = external (update_transcript_status transcript_id "error" []) s2.
Proof.
  intros Hproc Hjob. unfold process_audio_background, process_audio_attempt.
  rewrite (attempt_inr _ _ _ _ _ (raised_inr _ _ _ _ (external_run _ _ _ _ Hproc))).
  by rewrite (attempt_inl _ _ _ _ _ (raised_inl _ _ _ _ Hjob)).
Qed.

(** X17.  A transcription that succeeded is thrown away when the Vertex AI
    client cannot be created.  [generate_summary_and_action_items] then
    returns the bare summary string, the subscript ["summary_text"] on it
    raises [TypeError], and the task ends like a failed job: the status is
    set to ["error"]; the transcript text, the duration and the speaker
    count are not stored and no usage is recorded. *)
Theorem failed_summary_client_discards_the_transcript transcript_id
    audio_file_content original_filename language
    (s0 s2 : state (World := World)) w1 result e w3 :
  update_transcript_status transcript_id "processing" [] (world s0) = (inr (), w1) →
  transcribe_audio_file getenv uuid4 upload_from_file from_file
    set_frame_rate_and_channels dBFS split_on_silence export_flac
    long_running_recognize audio_file_content language original_filename
    {| world := w1; store := store s0 |} = (inr result, s2) →
  prediction_service_client (world s2) = (inl e, w3) →
  generate_summary_and_action_items prediction_service_client
    (transcript_text result.1) language (world s2)
  = (SummaryStr (generate_basic_summary (transcript_text result.1) language), w3) ∧
  process_audio_background getenv uuid4 upload_from_file from_file
    set_frame_rate_and_channels dBFS split_on_silence export_flac
    long_running_recognize prediction_service_client update_transcript_status
    query_transcript update_usage
    transcript_id audio_file_content original_filename language s0
  = external (update_transcript_status transcript_id "error" [])
      {| world := w3; store := store s2 |}.
Proof.
  intros Hproc Hjob Hclient.
  assert (generate_summary_and_action_items prediction_service_client
            (transcript_text result.1) language (world s2)
          = (SummaryStr (generate_basic_summary (transcript_text result.1) language), w3))
    as Hsum by (unfold generate_summary_and_action_items; by rewrite Hclient).
  split; [done|]. unfold process_audio_background, process_audio_attempt.
  rewrite (attempt_inr _ _ _ _ _ (raised_inr _ _ _ _ (external_run _ _ _ _ Hproc))).
  rewrite (attempt_inr _ _ _ _ _ (raised_inr _ _ _ _ Hjob)).
  unfold mbind at 1, Attempt_bind at 1. by rewrite Hsum.
Qed.

(** X18.  What a successful job records.  When the pipeline returns and the
    Vertex AI client can be created, the status is set to ["done"] with
    the transcript text, the basic summary of that text, the duration, the
    speaker count and the URI of the upload; then, if the transcript row
    is still found, the usage of its owner is increased by the duration of
    this job.  If that last update raises, the status is set to ["error"]
    although the results are stored. *)
Theorem successful_job_is_recorded transcript_id audio_file_content
    original_filename language
    (s0 s2 : state (World := World)) w1 result w3 w4 w5 user_id r w6 :
  update_transcript_status transcript_id "processing" [] (world s0) = (inr (), w1) →
  transcribe_audio_file getenv uuid4 upload_from_file from_file
    set_frame_rate_and_channels dBFS split_on_silence export_flac
    long_running_recognize audio_file_content language original_filename
    {| world := w1; store := store s0 |} = (inr result, s2) →
  prediction_service_client (world s2) = (inr (), w3) →
  update_transcript_status transcript_id "done"
    [("transcript_text", StrField (transcript_text result.1));
     ("summary_text",
      StrField (generate_basic_summary (transcript_text result.1) language));
     ("duration_seconds", IntField (duration_seconds result.1));
     ("speaker_count", IntField (total_speaker_count result.1));
     ("gcs_uri", StrField result.2)] w3 = (inr (), w4) →
  query_transcript transcript_id w4 = (inr (Some user_id), w5) →
  update_usage user_id (duration_seconds result.1) w5 = (r, w6) →
  process_audio_background getenv uuid4 upload_from_file from_file
    set_frame_rate_and_channels dBFS split_on_silence export_flac
    long_running_recognize prediction_service_client update_transcript_status
    query_transcript update_usage
    transcript_id audio_file_content original_filename language s0
  = match r with
    | inr _ => (inr (), {| world := w6; store := store s2 |})
    | inl _ => external (update_transcript_status transcript_id "error" [])
                 {| world := w6; store := store s2 |}
    end.
Proof.
  intros Hproc Hjob Hclient Hdone Hquery Husage.
  unfold process_audio_background, process_audio_attempt.
  rewrite (attempt_inr _ _ _ _ _ (raised_inr _ _ _ _ (external_run _ _ _ _ Hproc))).
  rewrite (attempt_inr _ _ _ _ _ (raised_inr _ _ _ _ Hjob)).
  unfold mbind at 1, Attempt_bind at 1. unfold generate_summary_and_action_items.
  rewrite Hclient. unfold mbind at 1, Attempt_bind at 1. cbn [summary_text_of].
  rewrite (attempt_inr _ _ _ _ _
             (raised_inr _ _ _ _ (external_run _ {| world := w3; store := store s2 |}
                                     _ _ Hdone))).
  rewrite (attempt_inr _ _ _ _ _
             (raised_inr _ _ _ _ (external_run _ {| world := w4; store := store s2 |}
                                     _ _ Hquery))).
  unfold raised, external. cbn [world store]. rewrite Husage. by destruct r.
Qed.
End task.

(** ** The scenarios, run *)

Example meeting_job :
  (Scenarios.pipeline [Byte.x01] (State (Scenarios.Outside true []) ∅)).1 =
  inr ({| transcript_text :=
            "Speaker 1: good morning " +:+ Py.newline +:+ "Speaker 2: hello";
          total_speaker_count := 2; duration_seconds := 2 |},
       "gs://meeting-transcription-audio/audio/0000/talk.mp3").
Proof. vm_compute. reflexivity. Qed.

Example result_without_alternative_raises :
  collect_segments Scenarios.broken_meeting (State (Scenarios.Outside true []) ∅)
  = (inl IndexError,
     State (Scenarios.Outside true [])
       {[ 0%nat := Segment "good" (seconds 0 1) (seconds 1 2) 1 ]}).
Proof. vm_compute. reflexivity. Qed.

Example summary_of_seven_sentences :
  generate_basic_summary "One. Two. Three. Four. Five. Six. Seven." "en"
  = "Automatic meeting summary:" +:+ Py.newline +:+ Py.newline
    +:+ "One. Two. Three. Six. Seven.".
Proof. vm_compute. reflexivity. Qed.


Lemma transcribe_chunks_collects_witness :
  let s := State (Scenarios.Outside true []) ∅ in
  let c := ChunkResult [0; 1; 2]%nat 2 "good morning hello" in
  let s' := State (Scenarios.Outside true []) Scenarios.meeting_store in
  transcribe_chunks Scenarios.recognize [[Byte.x01]] "en" [] s = (inr [c], s') ∧
  ∃ wss, represents Scenarios.meeting_store [c] wss ∧ Forall2 summarises [c] wss.
Proof.
  intros s c s'.
  assert (transcribe_chunks Scenarios.recognize [[Byte.x01]] "en" [] s = (inr [c], s'))
    as Hrun by (vm_compute; reflexivity).
  split; [exact Hrun|].
  destruct (transcribe_chunks_collects Scenarios.recognize [[Byte.x01]] "en" s s' [c] Hrun)
    as (wss & Hrep & Hsum & _).
  exists wss. split; [exact Hrep|exact Hsum].
Defined.


Lemma job_fails_when_file_is_undecodable_witness :
  let s := State (Scenarios.Outside true []) ∅ in
  Scenarios.decode [] = inl (ExternalError "CouldntDecodeError") ∧
  Scenarios.pipeline [] s = (inl (ExternalError "CouldntDecodeError"), s).
Proof.
  intros s. split; [reflexivity|].
  exact (proj2 (job_fails_when_file_is_undecodable (λ _, None) (λ w, ("0000", w))
                  (λ _ _ _ _ w, (inr (), w)) Scenarios.decode (λ _ _ a, a) (λ _, 0%Qc)
                  (λ a _ _ _, [a]) (λ a, a) Scenarios.recognize
                  [] "en" "talk.mp3" s s
                  "gs://meeting-transcription-audio/audio/0000/talk.mp3"
                  (ExternalError "CouldntDecodeError") eq_refl eq_refl)).
Defined.

(** The two chunk results share their dictionaries. *)
Lemma merge_keeps_words_and_speakers_witness :
  stored store12 [chunk1; chunk1] ∧
  ∃ res h',
    merge_transcript_chunks [chunk1; chunk1] store12 = Some (res, h') ∧
    dom h' = dom store12 ∧
    h' !! 2%nat = store12 !! 2%nat.
Proof.
  assert (stored store12 [chunk1; chunk1]) as Hst.
  { repeat constructor; by eexists. }
  split; [exact Hst|].
  destruct (merge_keeps_words_and_speakers store12 [chunk1; chunk1] Hst)
    as (res & h' & Hrun & Hdom & _ & Hframe).
  exists res, h'. split; [exact Hrun|]. split; [exact Hdom|].
  apply Hframe. compute_done.
Defined.




Lemma chunks_within_limit_or_one_segment_witness :
  MAX_CHUNK_DURATION_MS < len recording_with_pause ∧
  ∃ groups : list (list SilenceModel.Frame),
    SilenceModel.split recording_with_pause = inr (SilenceModel.export <$> groups) ∧
    Forall (λ g, g ≠ []) groups.
Proof.
  assert (MAX_CHUNK_DURATION_MS < len recording_with_pause) as Hlong by compute_done.
  split; [exact Hlong|].
  destruct (chunks_within_limit_or_one_segment (File := list SilenceModel.Frame) inr
              (λ _ _ a, a) SilenceModel.dBFS SilenceModel.split_on_silence
              SilenceModel.export recording_with_pause recording_with_pause
              eq_refl Hlong)
    as (groups & Hrun & Hall & _).
  exists groups. split; [exact Hrun|].
  eapply Forall_impl; [exact Hall|]. intros g Hg. exact (proj1 Hg).
Defined.

Lemma chunks_are_packed_first_fit_witness :
  MAX_CHUNK_DURATION_MS < len recording_with_pause ∧
  ∃ (p0 : list (list SilenceModel.Frame)) parts,
    SilenceModel.split recording_with_pause
    = inr (SilenceModel.export <$>
             filter (λ g, g ≠ []) (@concat SilenceModel.Frame <$> (p0 :: parts))) ∧
    first_fit (concat p0) parts.
Proof.
  assert (MAX_CHUNK_DURATION_MS < len recording_with_pause) as Hlong by compute_done.
  split; [exact Hlong|].
  destruct (chunks_are_packed_first_fit (File := list SilenceModel.Frame) inr
              (λ _ _ a, a) SilenceModel.dBFS SilenceModel.split_on_silence
              SilenceModel.export recording_with_pause recording_with_pause
              eq_refl Hlong)
    as (p0 & parts & Hrun & _ & _ & Hff).
  exists p0, parts. split; [exact Hrun|exact Hff].
Defined.

Lemma silent_long_audio_gives_empty_transcript_witness :
  MAX_CHUNK_DURATION_MS < len (pause 360000) ∧
  Scenarios.silent_job (pause 360000) (State 0%nat ∅)
  = (inr ({| transcript_text := ""; total_speaker_count := 0;
             duration_seconds := 0 |},
          "gs://meeting-transcription-audio/audio/0000/talk.mp3"),
     State 0%nat ∅).
Proof.
  assert (MAX_CHUNK_DURATION_MS < len (pause 360000)) as Hlong by compute_done.
  split; [exact Hlong|].
  exact (proj2 (silent_long_audio_gives_empty_transcript (λ _, None) (λ w, ("0000", w))
                  (λ _ _ _ _ w, (inr (), w)) inr (λ _ _ a, a) SilenceModel.dBFS
                  (λ _ _ _ _, []) SilenceModel.export recognize_rejects_second
                  (pause 360000) (pause 360000) "en" "talk.mp3"
                  (State 0%nat ∅) (State 0%nat ∅)
                  "gs://meeting-transcription-audio/audio/0000/talk.mp3"
                  eq_refl eq_refl Hlong eq_refl)).
Defined.

Lemma failed_job_is_marked_error_witness :
  let s0 := State (Scenarios.Outside true []) ∅ in
  let s1 := State (Scenarios.Outside true [Scenarios.SetStatus "t-1" "processing" []]) ∅ in
  Scenarios.pipeline [] s1 = (inl (ExternalError "CouldntDecodeError"), s1) ∧
  Scenarios.task [] s0
  = (inr (),
     State (Scenarios.Outside true [Scenarios.SetStatus "t-1" "processing" [];
                                    Scenarios.SetStatus "t-1" "error" []]) ∅).
Proof.
  intros s0 s1.
  assert (Scenarios.pipeline [] s1 = (inl (ExternalError "CouldntDecodeError"), s1))
    as Hjob by reflexivity.
  split; [exact Hjob|].
  exact (failed_job_is_marked_error (λ _, None) (λ w, ("0000", w))
           (λ _ _ _ _ w, (inr (), w)) Scenarios.decode (λ _ _ a, a) (λ _, 0%Qc)
           (λ a _ _ _, [a]) (λ a, a) Scenarios.recognize Scenarios.create_client
           (λ id status kwargs, Scenarios.log (Scenarios.SetStatus id status kwargs))
           (λ _ w, (inr (Some "user-1"), w))
           (λ user_id seconds, Scenarios.log (Scenarios.AddUsage user_id seconds))
           "t-1" [] "talk.mp3" "en" s0 s1 (world s1)
           (ExternalError "CouldntDecodeError") eq_refl Hjob).
Defined.

Lemma failed_summary_client_discards_the_transcript_witness :
  let s0 := State (Scenarios.Outside false []) ∅ in
  let w1 := Scenarios.Outside false [Scenarios.SetStatus "t-1" "processing" []] in
  let result :=
    ({| transcript_text :=
          "Speaker 1: good morning " +:+ Py.newline +:+ "Speaker 2: hello";
        total_speaker_count := 2; duration_seconds := 2 |},
     "gs://meeting-transcription-audio/audio/0000/talk.mp3") in
  Scenarios.pipeline [Byte.x01] (State w1 ∅)
    = (inr result, State w1 Scenarios.meeting_store) ∧
  Scenarios.create_client w1 = (inl (ExternalError "DefaultCredentialsError"), w1) ∧
  Scenarios.task [Byte.x01] s0
  = (inr (),
     State (Scenarios.Outside false [Scenarios.SetStatus "t-1" "processing" [];
                                     Scenarios.SetStatus "t-1" "error" []])
       Scenarios.meeting_store).
Proof.
  intros s0 w1 result.
  assert (Scenarios.pipeline [Byte.x01] (State w1 ∅)
          = (inr result, State w1 Scenarios.meeting_store))
    as Hjob by (vm_compute; reflexivity).
  split; [exact Hjob|]. split; [reflexivity|].
  exact (proj2 (failed_summary_client_discards_the_transcript
           (λ _, None) (λ w, ("0000", w))
           (λ _ _ _ _ w, (inr (), w)) Scenarios.decode (λ _ _ a, a) (λ _, 0%Qc)
           (λ a _ _ _, [a]) (λ a, a) Scenarios.recognize Scenarios.create_client
           (λ id status kwargs, Scenarios.log (Scenarios.SetStatus id status kwargs))
           (λ _ w, (inr (Some "user-1"), w))
           (λ user_id seconds, Scenarios.log (Scenarios.AddUsage user_id seconds))
           "t-1" [Byte.x01] "talk.mp3" "en" s0 (State w1 Scenarios.meeting_store) w1
           result (ExternalError "DefaultCredentialsError") w1
           eq_refl Hjob eq_refl)).
Defined.

Lemma successful_job_is_recorded_witness :
  let s0 := State (Scenarios.Outside true []) ∅ in
  let w1 := Scenarios.Outside true [Scenarios.SetStatus "t-1" "processing" []] in
  let text := "Speaker 1: good morning " +:+ Py.newline +:+ "Speaker 2: hello" in
  let uri := "gs://meeting-transcription-audio/audio/0000/talk.mp3" in
  let result :=
    ({| transcript_text := text; total_speaker_count := 2; duration_seconds := 2 |},
     uri) in
  let done :=
    Scenarios.SetStatus "t-1" "done"
      [("transcript_text", StrField text);
       ("summary_text", StrField (generate_basic_summary text "en"));
       ("duration_seconds", IntField 2);
       ("speaker_count", IntField 2);
       ("gcs_uri", StrField uri)] in
  Scenarios.pipeline [Byte.x01] (State w1 ∅)
    = (inr result, State w1 Scenarios.meeting_store) ∧
  Scenarios.task [Byte.x01] s0
  = (inr (),
     State (Scenarios.Outside true [Scenarios.SetStatus "t-1" "processing" []; done;
                                    Scenarios.AddUsage "user-1" 2])
       Scenarios.meeting_store).
Proof.
  intros s0 w1 text uri result done.
  assert (Scenarios.pipeline [Byte.x01] (State w1 ∅)
          = (inr result, State w1 Scenarios.meeting_store))
    as Hjob by (vm_compute; reflexivity).
  split; [exact Hjob|].
  exact (successful_job_is_recorded
           (λ _, None) (λ w, ("0000", w))
           (λ _ _ _ _ w, (inr (), w)) Scenarios.decode (λ _ _ a, a) (λ _, 0%Qc)
           (λ a _ _ _, [a]) (λ a, a) Scenarios.recognize Scenarios.create_client
           (λ id status kwargs, Scenarios.log (Scenarios.SetStatus id status kwargs))
           (λ _ w, (inr (Some "user-1"), w))
           (λ user_id seconds, Scenarios.log (Scenarios.AddUsage user_id seconds))
           "t-1" [Byte.x01] "talk.mp3" "en" s0 (State w1 Scenarios.meeting_store) w1
           result w1 (Scenarios.Outside true [Scenarios.SetStatus "t-1" "processing" []; done])
           (Scenarios.Outside true [Scenarios.SetStatus "t-1" "processing" []; done])
           "user-1" (inr ())
           (Scenarios.Outside true [Scenarios.SetStatus "t-1" "processing" []; done;
                                    Scenarios.AddUsage "user-1" 2])
           eq_refl Hjob eq_refl eq_refl eq_refl eq_refl).
Defined.

Lemma merged_chunks_do_not_overlap_witness :
  represents store12 [chunk1; chunk2] [words1; words2] ∧
  Forall (Forall (λ w, 0 ≤ start_time w ∧ 0 ≤ end_time w)%Qc) [words1; words2] ∧
  ∃ res h',
    merge_transcript_chunks [chunk1; chunk2] store12 = Some (res, h') ∧
    ∀ w w', h' !! 1%nat = Some w → h' !! 2%nat = Some w' →
            (end_time w ≤ start_time w')%Qc.
Proof.
  assert (Forall (Forall (λ w, 0 ≤ start_time w ∧ 0 ≤ end_time w)%Qc) [words1; words2])
    as Hpos by (repeat constructor; done).
  split; [exact represents_store12|]. split; [exact Hpos|].
  destruct (merged_chunks_do_not_overlap store12 [chunk1; chunk2] [words1; words2]
              represents_store12 Hpos)
    as (res & h' & Hrun & Hover).
  exists res, h'. split; [exact Hrun|]. intros w w' Hw Hw'.
  apply (Hover 0%nat 1%nat chunk1 chunk2 1%nat 2%nat w w');
    [lia|reflexivity|reflexivity|right; left|left|exact Hw|exact Hw'].
Defined.

Lemma transcript_begins_with_first_speaker_witness :
  represents store12 [chunk1; chunk2] [words1; words2] ∧
  ∃ res h' tail,
    merge_transcript_chunks [chunk1; chunk2] store12 = Some (res, h') ∧
    transcript_text res = "Speaker 1:" +:+ tail.
Proof.
  split; [exact represents_store12|].
  destruct (transcript_begins_with_first_speaker store12 [chunk1; chunk2]
              [words1; words2] represents_store12)
    as (res & h' & Hrun & _ & Hhead).
  destruct (Hhead _ _ eq_refl) as [tail Htail].
  exists res, h', tail. split; [exact Hrun|exact Htail].
Defined.
